(** * A shallow embedding of du-simple (src/du.h, src/du.c)

    The traversal [dfs] of du.c is embedded over an abstract file system
    given by [lstat] and [opendir] (the latter yields the whole readdir
    sequence, "." and ".." included), an allocator that may refuse a
    request, and [strerror].  The shared [*error] out-parameter, the inode
    registry [seen] and the interleaved standard output / standard error
    streams are threaded explicitly as a [State].  Recursion on the file
    system is bounded by a fuel argument: [None] means "out of fuel" and is
    not a behaviour of the program.  [blkcnt_t] sums are kept in [Z]. *)

From Stdlib Require Import ZArith List String Ascii Bool Lia.
From Stdlib Require Import DecimalString.
Import ListNotations.

(** ** du.h *)

Definition kPathMax : nat := 512.
Definition kMaxArgs : Z := 3.
Definition sizeof_ino_t : Z := 8.
Definition sizeof_DynamicArray : Z := 24.

(** errno values used by the code paths whose errno is not produced by the
    file system. *)
Definition ENOMEM : positive := 12.
Definition EOVERFLOW : positive := 75.

(** The part of [st_mode] the code inspects. *)
Inductive file_type := S_IFDIR | S_IFREG | S_IFLNK | S_IFOTHER.

Record stat := mkStat {
  st_mode : file_type;
  st_blocks : Z;
  st_ino : Z;
  st_nlink : Z
}.

Definition S_ISDIR (m : file_type) : bool :=
  match m with S_IFDIR => true | _ => false end.
Definition S_ISREG (m : file_type) : bool :=
  match m with S_IFREG => true | _ => false end.

(** [typedef struct DynamicArray { size_t size; size_t len; void *data; }].
    [data] is the sequence of identifiers the code has stored at
    [inodes[0 .. len)]; [alloc_bytes] is the size in bytes of the block
    [data] points to; [oob_write] is ghost state recording that some store
    [inodes[len] = ino] fell outside that block.  [data] is the content of
    the block only as long as [oob_write] is false: the growth in
    [InsertInode] reallocates to [size * 2] bytes, which keeps only the
    first [size / 4] identifiers, and the same call then stores outside the
    block, so from that store on the program's behaviour is undefined and
    [data] no longer describes memory.  Statements that depend on what
    [data] holds are therefore made for runs that end with [oob_write]
    false. *)
Record DynamicArray := mkDA {
  size : Z;
  len : Z;
  data : list Z;
  alloc_bytes : Z;
  oob_write : bool
}.

(** One line written by the program, in the order written. *)
Inductive event :=
| Stdout (usage : Z) (path : string)
| Stderr (msg : string).

(** The operating system as seen by the program.  [opendir] gives the
    result of opening a path as a function of the path alone: the limit on
    open descriptors (EMFILE), which the recursion of [dfs] approaches by
    keeping one directory stream open per level, is not modelled, so
    statements hold for runs whose nesting stays below that limit. *)
Record Env := mkEnv {
  lstat : string -> stat + positive;
  opendir : string -> list string + positive;
  malloc_ok : Z -> bool;
  realloc_ok : Z -> bool;
  strerror : positive -> string
}.

(** [seen], [*error] and the output streams. *)
Record State := mkState {
  seen : DynamicArray;
  error : Z;
  log : list event
}.

Definition nl : string := String (ascii_of_nat 10) EmptyString.

(** [printf("%lu", ino)]. *)
Definition string_of_ino (ino : Z) : string :=
  NilZero.string_of_uint (N.to_uint (Z.to_N ino)).

Definition emit (ev : event) (s : State) : State :=
  mkState (seen s) (error s) (log s ++ [ev]).

Definition set_error (e : positive) (s : State) : State :=
  mkState (seen s) (Zpos e) (log s).

Definition set_seen (da : DynamicArray) (s : State) : State :=
  mkState da (error s) (log s).

(** [PrintDiskUsage]: [printf("%ld\t%s\n", disk_usage, path)]. *)
Definition PrintDiskUsage (disk_usage : Z) (path : string) (s : State) : State :=
  emit (Stdout disk_usage path) s.

(** [st_blocks / 2]. *)
Definition kb_of (sb : stat) : Z := Z.quot (st_blocks sb) 2.

(** [snprintf(pathname, kPathMax, "%s/%s", rootpath, d_name)]: the return
    value is the length of the untruncated result, the buffer holds at most
    [kPathMax - 1] characters of it. *)
Definition snprintf_path (rootpath d_name : string) : Z * string :=
  let full := (rootpath ++ "/" ++ d_name)%string in
  (Z.of_nat (String.length full), substring 0 (kPathMax - 1) full).

Definition is_dot_entry (d_name : string) : bool :=
  ((d_name =? ".") || (d_name =? ".."))%string.

Section Du.

Variable env : Env.

(** [perror(msg)] with the current [errno]. *)
Definition perror (msg : string) (errno : positive) : event :=
  Stderr (msg ++ ": " ++ strerror env errno ++ nl).

(** ** The inode registry *)

Definition InitDynamicArray (size type_size : Z) : option DynamicArray * list event :=
  if negb (malloc_ok env sizeof_DynamicArray) then
    (None, [perror "malloc failed on struct allocation" ENOMEM])
  else if negb (malloc_ok env (size * type_size)) then
    (None, [perror "malloc failed on array allocation" ENOMEM])
  else (Some (mkDA size 0 [] (size * type_size) false), []).

(** [SearchInode]: linear scan of [inodes[0 .. len)]; [true] for a
    non-NULL result. *)
Definition SearchInode (da : DynamicArray) (ino : Z) : bool :=
  existsb (Z.eqb ino) (data da).

(** Whether [inodes[len] = ino] stays inside the allocated block. *)
Definition store_in_bounds (da : DynamicArray) : bool :=
  ((len da + 1) * sizeof_ino_t <=? alloc_bytes da)%Z.

(** [InsertInode]: [None] is the [-1] return, the array is then unchanged. *)
Definition InsertInode (da : DynamicArray) (ino : Z) : option DynamicArray :=
  let grown :=
    if (size da =? len da)%Z then
      if realloc_ok env (size da * 2) then
        Some (mkDA (size da * 2) (len da) (data da) (size da * 2) (oob_write da))
      else None
    else Some da in
  match grown with
  | None => None
  | Some da =>
      Some (mkDA (size da) (len da + 1) (data da ++ [ino]) (alloc_bytes da)
                 (oob_write da || negb (store_in_bounds da)))
  end.

(** ** The traversal *)

(** The [while ((direntp = readdir(dirp)))] loop of [dfs]; [rec] is the
    recursive call [dfs(pathname, seen, error, include_files)].  A [break]
    returns the current [total] and state. *)
Fixpoint dfs_loop (rec : string -> State -> option (Z * State))
    (include_files : bool) (rootpath : string) (entries : list string)
    (total : Z) (s : State) : option (Z * State) :=
  match entries with
  | [] => Some (total, s)
  | d_name :: rest =>
    if is_dot_entry d_name then dfs_loop rec include_files rootpath rest total s
    else
    let (ret, pathname) := snprintf_path rootpath d_name in
    if (ret <? 0)%Z then
      Some (total, set_error EOVERFLOW
        (emit (perror "failed to concatenate root path to filename" EOVERFLOW) s))
    else
    match lstat env pathname with
    | inr e =>
      Some (total, set_error e
        (emit (Stderr ("failed to retrieve stat on '" ++ strerror env e ++ "'" ++ nl)) s))
    | inl sb =>
      let disk_usage_kb := kb_of sb in
      let next (total : Z) (s : State) :=
        dfs_loop rec include_files rootpath rest total
          (if include_files && negb (S_ISDIR (st_mode sb))
           then PrintDiskUsage disk_usage_kb pathname s else s) in
      if S_ISDIR (st_mode sb) then
        match rec pathname s with
        | None => None
        | Some (u, s') =>
          if (error s' =? 0)%Z then next (total + u)%Z s' else Some ((total + u)%Z, s')
        end
      else if S_ISREG (st_mode sb) then
        if (1 <? st_nlink sb)%Z then
          if SearchInode (seen s) (st_ino sb) then
            dfs_loop rec include_files rootpath rest total s
          else
          match InsertInode (seen s) (st_ino sb) with
          | None =>
            Some (total, set_error ENOMEM
              (emit (Stderr ("failed to insert inode '" ++ string_of_ino (st_ino sb)
                             ++ "'" ++ nl)) s))
          | Some da => next (total + disk_usage_kb)%Z (set_seen da s)
          end
        else next (total + disk_usage_kb)%Z s
      else next total s
    end
  end.

(** [dfs(rootpath, seen, error, include_files)]. *)
Fixpoint dfs (fuel : nat) (rootpath : string) (include_files : bool) (s : State)
    : option (Z * State) :=
  match fuel with
  | O => None
  | S fuel' =>
    match lstat env rootpath with
    | inr e =>
      Some (0%Z, set_error e
        (emit (Stderr ("failed to get stat for '" ++ rootpath ++ "'" ++ nl)) s))
    | inl sb =>
      let disk_usage_kb := kb_of sb in
      if negb (S_ISDIR (st_mode sb)) then
        Some (disk_usage_kb, PrintDiskUsage disk_usage_kb rootpath s)
      else
      let total := disk_usage_kb in
      match opendir env rootpath with
      | inr e =>
        Some (0%Z, set_error e
          (emit (Stderr ("failed to open directory '" ++ rootpath ++ "'" ++ nl)) s))
      | inl entries =>
        match dfs_loop (fun p s => dfs fuel' p include_files s)
                       include_files rootpath entries total s with
        | None => None
        | Some (total, s) =>
          (* closedir(dirp) *)
          if (error s =? 0)%Z then Some (total, PrintDiskUsage total rootpath s)
          else Some (total, s)
        end
      end
    end
  end.

(** [du(rootpath, include_files)]: the return value and everything written. *)
Definition du (fuel : nat) (rootpath : string) (include_files : bool)
    : option (Z * list event) :=
  let kInitSize := 8%Z in
  match InitDynamicArray kInitSize sizeof_ino_t with
  | (None, ev) =>
    Some ((-1)%Z, ev ++ [perror "failed to initialize dynamic array" ENOMEM])
  | (Some da, ev) =>
    match dfs fuel rootpath include_files (mkState da 0 ev) with
    | None => None
    | Some (_, s) =>
      (* FreeDynamicArray(seen) *)
      if (error s =? 0)%Z then Some (0%Z, log s) else Some ((-1)%Z, log s)
    end
  end.

(** ** The traversal as the spec describes it

    Modelled from the spec (section 4.2, Walk, and section 8): the entries
    of the tree rooted at a path, each with its metadata, listed in
    post-order (a directory after all of its descendants, children in the
    order the directory listing yields them, "." and ".." skipped).  A
    child path is parent + "/" + name; a stat failure, an open failure or a
    child path that does not fit the [kPathMax] buffer (PathTooLong) makes
    the walk fail. *)
Definition join_path (p d_name : string) : string := (p ++ "/" ++ d_name)%string.

Fixpoint walk_children (walk : string -> option (list (string * stat)))
    (p : string) (names : list string) : option (list (string * stat)) :=
  match names with
  | [] => Some []
  | d_name :: rest =>
    if is_dot_entry d_name then walk_children walk p rest
    else
    let c := join_path p d_name in
    if (kPathMax <=? String.length c)%nat then None
    else
    match walk c with
    | None => None
    | Some es =>
      match walk_children walk p rest with
      | None => None
      | Some es' => Some (es ++ es')
      end
    end
  end.

Fixpoint walk_spec (fuel : nat) (p : string) : option (list (string * stat)) :=
  match fuel with
  | O => None
  | S fuel' =>
    match lstat env p with
    | inr _ => None
    | inl st =>
      if negb (S_ISDIR (st_mode st)) then Some [(p, st)]
      else
      match opendir env p with
      | inr _ => None
      | inl names =>
        match walk_children (walk_spec fuel') p names with
        | None => None
        | Some es => Some (es ++ [(p, st)])
        end
      end
    end
  end.

End Du.

(** Accounting over a post-order listing below a directory root, with the
    registry [R] of inodes already seen: directories always get a record
    and add their own usage; a regular file with more than one link whose
    inode is already registered is skipped, otherwise its inode is
    registered; every other non-directory gets a record when files are
    reported; regular files add their usage, other non-directories add
    nothing.  Returns the recorded paths, the final registry and the
    accumulated usage. *)
Fixpoint account (include_files : bool) (R : list Z) (es : list (string * stat))
    : list string * list Z * Z :=
  match es with
  | [] => ([], R, 0%Z)
  | (q, st) :: rest =>
    let shown := if include_files then [q] else [] in
    if S_ISDIR (st_mode st) then
      let '(ps, R', t) := account include_files R rest in (q :: ps, R', (kb_of st + t)%Z)
    else if S_ISREG (st_mode st) then
      if (1 <? st_nlink st)%Z then
        if existsb (Z.eqb (st_ino st)) R then account include_files R rest
        else
          let '(ps, R', t) := account include_files (R ++ [st_ino st]) rest in
          (shown ++ ps, R', (kb_of st + t)%Z)
      else
        let '(ps, R', t) := account include_files R rest in
        (shown ++ ps, R', (kb_of st + t)%Z)
    else
      let '(ps, R', t) := account include_files R rest in (shown ++ ps, R', t)
  end.

(** The usage lines of a list of records. *)
Definition records (recs : list (Z * string)) : list event :=
  map (fun r => Stdout (fst r) (snd r)) recs.

(** What the traversal computes apart from its output. *)
Definition outcome (r : option (Z * State)) : option (Z * DynamicArray * Z) :=
  match r with
  | None => None
  | Some (t, s) => Some (t, seen s, error s)
  end.

(** Between [s] and [s'] the registry was only appended to, and stays
    free of duplicates. *)
Definition registry_grows (s s' : State) : Prop :=
  (exists added, data (seen s') = data (seen s) ++ added) /\
  (NoDup (data (seen s)) -> NoDup (data (seen s'))).

(** The path [dfs] builds for an entry. *)
Definition child_path (p d_name : string) : string := snd (snprintf_path p d_name).

(** [q] is the path of an entry strictly below the directory path [p]:
    longer than [p] when [p] fits the buffer, the truncated buffer itself
    when [p] does not. *)
Definition below (p q : string) : Prop :=
  (String.length p < kPathMax - 1 /\ String.length p < String.length q /\
   String.length q <= kPathMax - 1)%nat \/
  (kPathMax - 1 < String.length p /\ String.length q = kPathMax - 1)%nat.

Definition has_entry (names : list string) : bool :=
  existsb (fun n => negb (is_dot_entry n)) names.

(** The lines written between [s] and [s']: usage records for paths below
    [p], then either [ok_tail] (no error) or a single diagnostic (error). *)
Definition emitted (p : string) (ok_tail : list event) (s s' : State) : Prop :=
  exists recs, Forall (fun r => below p (snd r)) recs /\
  ((error s' = 0%Z /\ log s' = log s ++ records recs ++ ok_tail) \/
   (error s' <> 0%Z /\ exists m, log s' = log s ++ records recs ++ [Stderr m])).

(** Between [s] and [s'] the traversal accounted for [es] with usage [u]. *)
Definition accounted (b : bool) (es : list (string * stat)) (u : Z) (s s' : State) : Prop :=
  (error s' = 0%Z -> exists recs, log s' = log s ++ records recs /\
     account b (data (seen s)) es = (map snd recs, data (seen s'), u)) /\
  (error s' <> 0%Z -> exists q st, In (q, st) es /\ S_ISREG (st_mode st) = true /\
     (1 < st_nlink st)%Z).

(** ** Notions the statements are phrased with *)

(** A regular file with more than one link: the only entries [dfs] looks up
    and registers. *)
Definition multi_link (st : stat) : bool :=
  S_ISREG (st_mode st) && (1 <? st_nlink st)%Z.

Definition is_dir_entry (e : string * stat) : bool := S_ISDIR (st_mode (snd e)).

(** The usage [dfs] adds to a directory total for an entry: its own for a
    directory or a regular file, nothing for any other type. *)
Definition usage_of (st : stat) : Z :=
  if S_ISDIR (st_mode st) || S_ISREG (st_mode st) then kb_of st else 0%Z.

Definition usage_sum (es : list (string * stat)) : Z :=
  fold_right (fun e acc => (usage_of (snd e) + acc)%Z) 0%Z es.

(** The sum of every entry's own allocated-block usage, whatever its type. *)
Definition own_usage_sum (es : list (string * stat)) : Z :=
  fold_right (fun e acc => (kb_of (snd e) + acc)%Z) 0%Z es.

(** First-encounter selection over a listing, given the inodes [R] already
    registered: a multi-link regular file is kept only when its inode is
    neither in [R] nor carried by an earlier kept entry; every other entry
    is kept. *)
Fixpoint dedup_entries (R : list Z) (es : list (string * stat)) : list (string * stat) :=
  match es with
  | [] => []
  | (q, st) :: rest =>
    if multi_link st then
      if existsb (Z.eqb (st_ino st)) R then dedup_entries R rest
      else (q, st) :: dedup_entries (R ++ [st_ino st]) rest
    else (q, st) :: dedup_entries R rest
  end.

(** [subseq l l']: [l] is [l'] with some elements removed, order kept. *)
Inductive subseq {A : Type} : list A -> list A -> Prop :=
| subseq_nil : subseq [] []
| subseq_take x l l' : subseq l l' -> subseq (x :: l) (x :: l')
| subseq_skip x l l' : subseq l l' -> subseq l (x :: l').

(** The identifiers that lie inside the allocated block: the first
    [alloc_bytes / sizeof(ino_t)] of those stored. *)
Definition block_contents (da : DynamicArray) : list Z :=
  firstn (Z.to_nat (alloc_bytes da / sizeof_ino_t)) (data da).

(** The registry as [SearchInode] finds it when only the identifiers inside
    the block have survived. *)
Definition in_block (da : DynamicArray) : DynamicArray :=
  mkDA (size da) (len da) (block_contents da) (alloc_bytes da) (oob_write da).

(** [n] insertions in a row, stopping at the first failure. *)
Definition insert_all (env : Env) (da : DynamicArray) (inos : list Z) : option DynamicArray :=
  fold_left (fun o ino => match o with Some da => InsertInode env da ino | None => None end)
    inos (Some da).

(** ** Sample file systems *)

Definition ENOENT : positive := 2.
Definition EACCES : positive := 13.

Definition lookup_path {A : Type} (k : string) (l : list (string * A)) : option A :=
  match find (fun e => String.eqb (fst e) k) l with Some (_, v) => Some v | None => None end.

(** A file system given by the [lstat] result of each existing path and the
    entries of each readable directory; every allocation succeeds. *)
Definition sample_fs (files : list (string * stat)) (dirs : list (string * list string)) : Env :=
  mkEnv
    (fun p => match lookup_path p files with Some st => inl st | None => inr ENOENT end)
    (fun p => match lookup_path p dirs with
              | Some l => inl ("."%string :: ".."%string :: l) | None => inr EACCES end)
    (fun _ => true) (fun _ => true)
    (fun e => if Pos.eqb e ENOENT then "No such file or directory"%string
              else "Permission denied"%string).

(** d/a and d/b are two links to one inode, d/l a symbolic link, d/s a
    subdirectory. *)
Definition tree_env : Env :=
  sample_fs
    [("d", mkStat S_IFDIR 8 1 3); ("d/a", mkStat S_IFREG 16 5 2);
     ("d/b", mkStat S_IFREG 16 5 2); ("d/l", mkStat S_IFLNK 8 7 1);
     ("d/s", mkStat S_IFDIR 8 9 2); ("d/s/x", mkStat S_IFREG 4 10 1)]%string
    [("d", ["a"; "l"; "s"; "b"]); ("d/s", ["x"])]%string.

(** A directory d of no blocks holding a symbolic link of eight blocks. *)
Definition symlink_env : Env :=
  sample_fs [("d", mkStat S_IFDIR 0 1 2); ("d/l", mkStat S_IFLNK 8 2 1)]%string
            [("d", ["l"])]%string.

(** A directory whose path has 505 characters, holding regular files named
    abcde and abcdefghij: the path of the second does not fit the buffer,
    and its first 511 characters are the path of the first. *)
Definition long_root : string := string_of_list_ascii (List.repeat "r"%char 505).
Definition long_child : string := (long_root ++ "/abcde")%string.
Definition long_env : Env :=
  sample_fs [(long_root, mkStat S_IFDIR 8 1 2); (long_child, mkStat S_IFREG 8 2 1)]
            [(long_root, ["abcde"; "abcdefghij"])]%string.

(** A directory d holding nine regular files, each with a second link. *)
Definition nine_links_env : Env :=
  sample_fs
    (("d"%string, mkStat S_IFDIR 8 1 2) ::
     map (fun i => (("d/f" ++ string_of_ino i)%string, mkStat S_IFREG 8 (10 + i) 2))
         [1; 2; 3; 4; 5; 6; 7; 8; 9]%Z)
    [("d"%string, map (fun i => ("f" ++ string_of_ino i)%string) [1; 2; 3; 4; 5; 6; 7; 8; 9]%Z)].

(** nine_links_env with one more entry g4, listed last: a second link to the
    inode 14 of f4. *)
Definition g4_env : Env :=
  sample_fs
    (("d"%string, mkStat S_IFDIR 8 1 2) ::
     map (fun i => (("d/f" ++ string_of_ino i)%string, mkStat S_IFREG 8 (10 + i) 2))
         [1; 2; 3; 4; 5; 6; 7; 8; 9]%Z ++ [("d/g4"%string, mkStat S_IFREG 8 14 2)])
    [("d"%string, map (fun i => ("f" ++ string_of_ino i)%string) [1; 2; 3; 4; 5; 6; 7; 8; 9]%Z
                  ++ ["g4"%string])].

(** The entries of d in g4_env before g4, as readdir yields them. *)
Definition g4_prefix : list string :=
  "."%string :: ".."%string ::
  map (fun i => ("f" ++ string_of_ino i)%string) [1; 2; 3; 4; 5; 6; 7; 8; 9]%Z.

(** The registry after the nine insertions for d/f1 .. d/f9: [len] 9,
    [size] 16, a 16-byte block, and the ninth store out of bounds. *)
Definition g4_registry : DynamicArray :=
  mkDA 16 9 [11; 12; 13; 14; 15; 16; 17; 18; 19]%Z 16 true.

(** The usage lines of d/f1 .. d/f9. *)
Definition g4_records : list event :=
  map (fun i => Stdout 4 ("d/f" ++ string_of_ino i)%string) [1; 2; 3; 4; 5; 6; 7; 8; 9]%Z.

(** A directory d holding a regular file a, a subdirectory s with a file x,
    a subdirectory t that cannot be opened, and a regular file b listed
    after t. *)
Definition broken_env : Env :=
  sample_fs
    [("d", mkStat S_IFDIR 8 1 2); ("d/a", mkStat S_IFREG 16 2 1);
     ("d/s", mkStat S_IFDIR 8 3 2); ("d/s/x", mkStat S_IFREG 4 4 1);
     ("d/t", mkStat S_IFDIR 8 5 2); ("d/b", mkStat S_IFREG 16 6 1)]%string
    [("d", ["a"; "s"; "t"; "b"]); ("d/s", ["x"])]%string.

(** A directory d whose listing names an entry gone that no longer exists. *)
Definition vanished_env : Env :=
  sample_fs [("d", mkStat S_IFDIR 8 1 2)]%string [("d", ["gone"])]%string.

(** The state [du] starts [dfs] from. *)
Definition initial_state : State := mkState (mkDA 8 0 [] 64 false) 0 [].

(** The post-order listing of tree_env and the runs of [dfs] on it. *)
Definition tree_listing : list (string * stat) :=
  Eval vm_compute in
  match walk_spec tree_env 10 "d" with Some es => es | None => [] end.

Definition tree_run (b : bool) : Z * State :=
  match dfs tree_env 10 "d" b initial_state with Some r => r | None => (0%Z, initial_state) end.

(** ** main *)

Definition EXIT_SUCCESS : Z := 0.
Definition EXIT_FAILURE : Z := 1.

(** [getopt(argc, argv, "a")] called until it returns -1: the option
    characters it returns, in order, each with the lines getopt itself
    writes to standard error while producing it, and [optind] once it has
    returned -1; and [argv] as the loop leaves it, since glibc's getopt
    permutes [argv] so that the operands come after the options ([argv[0]]
    stays in place).  getopt belongs to the C library and is left
    abstract. *)
Record Getopt := mkGetopt {
  getopt_run : list string -> list (ascii * list string) * nat;
  getopt_argv : list string -> list string
}.

(** [PrintUsage(cmd)]. *)
Definition PrintUsage (cmd : string) : list event :=
  [Stderr ("Usage: " ++ cmd ++ " [-a] [FILE]" ++ nl);
   Stderr ("Options:" ++ nl);
   Stderr ("    -a    write counts for all files, not just directories" ++ nl)].

(** The [while ((opt = getopt(...)) != -1)] loop of [main]: [None] is the
    [default] case, which prints the usage and returns. *)
Fixpoint parse_opts (opts : list (ascii * list string)) (include_files : bool)
    (out : list event) : option bool * list event :=
  match opts with
  | [] => (Some include_files, out)
  | (opt, msgs) :: rest =>
    let out := out ++ map Stderr msgs in
    if Ascii.eqb opt "a"%char then parse_opts rest true out else (None, out)
  end.

(** [main(argc, argv)]: the exit status and everything written.  [argv[0]]
    is taken as the empty string when [argv] is empty. *)
Definition main (env : Env) (g : Getopt) (fuel : nat) (argv : list string)
    : option (Z * list event) :=
  let argc := Z.of_nat (List.length argv) in
  let cmd := nth 0 argv EmptyString in
  if (kMaxArgs <? argc)%Z then Some (EXIT_FAILURE, PrintUsage cmd)
  else
  let (opts, optind) := getopt_run g argv in
  match parse_opts opts false [] with
  | (None, out) => Some (EXIT_FAILURE, out ++ PrintUsage cmd)
  | (Some include_files, out) =>
    if (1 <? argc - Z.of_nat optind)%Z then Some (EXIT_FAILURE, out ++ PrintUsage cmd)
    else
    let pathname := if (Z.of_nat optind <? argc)%Z
                    then nth optind (getopt_argv g argv) EmptyString
                    else "."%string in
    match du env fuel pathname include_files with
    | None => None
    | Some (r, L) => Some (if (r <? 0)%Z then EXIT_FAILURE else EXIT_SUCCESS, out ++ L)
    end
  end.

(** The diagnostics [dfs] has a statement for. *)
Definition dfs_diagnostic (env : Env) (m : string) : Prop :=
  (exists p, m = ("failed to get stat for '" ++ p ++ "'" ++ nl)%string) \/
  (exists p, m = ("failed to open directory '" ++ p ++ "'" ++ nl)%string) \/
  (exists e, m = ("failed to retrieve stat on '" ++ strerror env e ++ "'" ++ nl)%string) \/
  (exists ino, m = ("failed to insert inode '" ++ string_of_ino ino ++ "'" ++ nl)%string).

Definition event_ok (env : Env) (ev : event) : Prop :=
  match ev with Stdout _ _ => True | Stderr m => dfs_diagnostic env m end.

(** Between [s] and [s'] only lines were appended, each a usage line or one
    of the diagnostics of [dfs]. *)
Definition writes_ok (env : Env) (s s' : State) : Prop :=
  exists added, log s' = log s ++ added /\ Forall (event_ok env) added.

(** A directory whose path fills the [kPathMax] buffer exactly. *)
Definition full_path_dir : string := string_of_list_ascii (List.repeat "q"%char 511).
Definition full_path_env : Env :=
  sample_fs [(full_path_dir, mkStat S_IFDIR 8 1 2)] [(full_path_dir, ["x"%string])].

(** tree_env with an allocator that refuses every request. *)
Definition no_memory_env : Env :=
  mkEnv (lstat tree_env) (opendir tree_env) (fun _ => false) (fun _ => false)
        (fun e => if Pos.eqb e ENOMEM then "Cannot allocate memory"%string
                  else strerror tree_env e).

(** A getopt that returns nothing and leaves [optind] at [i]. *)
Definition getopt_none (i : nat) : Getopt := mkGetopt (fun _ => ([], i)) (fun argv => argv).
(** A getopt that returns -a once, then -1 with [optind] at 2. *)
Definition getopt_a : Getopt := mkGetopt (fun _ => ([("a"%char, [])], 2%nat)) (fun argv => argv).
(** getopt on [du d -a]: it returns -a, then -1 with [optind] at 2, after
    moving the operand d behind the option. *)
Definition getopt_late : Getopt :=
  mkGetopt (fun _ => ([("a"%char, [])], 2%nat)) (fun _ => ["du"; "-a"; "d"]%string).
(** A getopt that meets the unknown option -x: it writes its own message and
    returns '?', with [optind] at 2. *)
Definition getopt_bad : Getopt :=
  mkGetopt (fun _ => ([("?"%char, [("du: invalid option -- 'x'" ++ nl)%string])], 2%nat))
           (fun argv => argv).

(** The path [main] gives [du]: [argv[optind]] of the permuted [argv], or
    "." when no operand is left. *)
Definition main_operand (g : Getopt) (argv : list string) : string :=
  if (Z.of_nat (snd (getopt_run g argv)) <? Z.of_nat (List.length argv))%Z
  then nth (snd (getopt_run g argv)) (getopt_argv g argv) EmptyString
  else "."%string.

(** [env] with the "." and ".." entries taken out of every directory listing. *)
Definition strip_dots (env : Env) : Env :=
  mkEnv (lstat env)
        (fun q => match opendir env q with
                  | inl names => inl (filter (fun n => negb (is_dot_entry n)) names)
                  | inr e => inr e
                  end)
        (malloc_ok env) (realloc_ok env) (strerror env).

(** ** General lemmas *)

Lemma snprintf_ret_nonneg (p n : string) : (fst (snprintf_path p n) <? 0)%Z = false.
Proof. unfold snprintf_path; simpl. apply Z.ltb_ge. lia. Qed.

Lemma snprintf_path_eq (p n : string) :
  snprintf_path p n =
  (Z.of_nat (String.length (p ++ "/" ++ n)), substring 0 (kPathMax - 1) (p ++ "/" ++ n)).
Proof. reflexivity. Qed.

(** The loop body on a non-dot entry, once the pair returned by [snprintf]
    and its dead [ret < 0] branch are out of the way. *)
Lemma dfs_loop_entry env rec b p d_name rest total s :
  is_dot_entry d_name = false ->
  dfs_loop env rec b p (d_name :: rest) total s =
  let pathname := snd (snprintf_path p d_name) in
  match lstat env pathname with
  | inr e =>
    Some (total, set_error e
      (emit (Stderr ("failed to retrieve stat on '" ++ strerror env e ++ "'" ++ nl)) s))
  | inl sb =>
    let disk_usage_kb := kb_of sb in
    let next (total : Z) (s : State) :=
      dfs_loop env rec b p rest total
        (if b && negb (S_ISDIR (st_mode sb))
         then PrintDiskUsage disk_usage_kb pathname s else s) in
    if S_ISDIR (st_mode sb) then
      match rec pathname s with
      | None => None
      | Some (u, s') =>
        if (error s' =? 0)%Z then next (total + u)%Z s' else Some ((total + u)%Z, s')
      end
    else if S_ISREG (st_mode sb) then
      if (1 <? st_nlink sb)%Z then
        if SearchInode (seen s) (st_ino sb) then dfs_loop env rec b p rest total s
        else
        match InsertInode env (seen s) (st_ino sb) with
        | None =>
          Some (total, set_error ENOMEM
            (emit (Stderr ("failed to insert inode '" ++ string_of_ino (st_ino sb)
                           ++ "'" ++ nl)) s))
        | Some da => next (total + disk_usage_kb)%Z (set_seen da s)
        end
      else next (total + disk_usage_kb)%Z s
    else next total s
  end.
Proof.
  intros Hd. simpl. rewrite Hd.
  pose proof (snprintf_ret_nonneg p d_name) as Hr.
  unfold snprintf_path in Hr. simpl in Hr. rewrite Hr. reflexivity.
Qed.

Lemma dfs_loop_dot env rec b p d_name rest total s :
  is_dot_entry d_name = true ->
  dfs_loop env rec b p (d_name :: rest) total s = dfs_loop env rec b p rest total s.
Proof. intros Hd. simpl. rewrite Hd. reflexivity. Qed.

(** ** The mode flag does not reach the totals or the registry *)


Section FlagIrrelevance.

Variable env : Env.

Lemma print_same_core (b : bool) (u : Z) (q : string) (s : State) :
  seen (if b then PrintDiskUsage u q s else s) = seen s /\
  error (if b then PrintDiskUsage u q s else s) = error s.
Proof. destruct b; split; reflexivity. Qed.

Lemma dfs_loop_flag_irrelevant rec1 rec2 b1 b2 p :
  (forall q s1 s2, seen s1 = seen s2 -> error s1 = error s2 ->
     outcome (rec1 q s1) = outcome (rec2 q s2)) ->
  forall entries total s1 s2, seen s1 = seen s2 -> error s1 = error s2 ->
  outcome (dfs_loop env rec1 b1 p entries total s1) =
  outcome (dfs_loop env rec2 b2 p entries total s2).
Proof.
  intros Hrec entries. induction entries as [|d_name rest IH]; intros total s1 s2 Hs He.
  - simpl. rewrite Hs, He. reflexivity.
  - destruct (is_dot_entry d_name) eqn:Hd.
    { rewrite !dfs_loop_dot by exact Hd. apply IH; assumption. }
    rewrite !dfs_loop_entry by exact Hd. cbv zeta.
    destruct (lstat env _) as [sb|e].
    2:{ simpl. unfold set_error, emit; simpl. rewrite Hs. reflexivity. }
    destruct (S_ISDIR (st_mode sb)) eqn:Hdir.
    + specialize (Hrec (snd (snprintf_path p d_name)) s1 s2 Hs He).
      destruct (rec1 _ s1) as [[u1 s1']|], (rec2 _ s2) as [[u2 s2']|];
        simpl in Hrec; try discriminate; [|reflexivity].
      injection Hrec as -> Hs' He'. rewrite He'.
      destruct (error s2' =? 0)%Z.
      * apply IH; destruct b1, b2; simpl; assumption.
      * simpl. rewrite Hs', He'. reflexivity.
    + assert (Hnext : forall t s1 s2, seen s1 = seen s2 -> error s1 = error s2 ->
        outcome (dfs_loop env rec1 b1 p rest t
          (if b1 && negb false then PrintDiskUsage (kb_of sb) (snd (snprintf_path p d_name)) s1 else s1)) =
        outcome (dfs_loop env rec2 b2 p rest t
          (if b2 && negb false then PrintDiskUsage (kb_of sb) (snd (snprintf_path p d_name)) s2 else s2))).
      { intros t s1'' s2'' H1 H2. apply IH; destruct b1, b2; simpl; assumption. }
      destruct (S_ISREG (st_mode sb)); [|apply Hnext; assumption].
      destruct (1 <? st_nlink sb)%Z; [|apply Hnext; assumption].
      rewrite Hs. destruct (SearchInode (seen s2) (st_ino sb)); [apply IH; assumption|].
      destruct (InsertInode env (seen s2) (st_ino sb)) as [da|].
      * apply Hnext; simpl; [reflexivity | exact He].
      * simpl. rewrite Hs. reflexivity.
Qed.

Lemma dfs_flag_irrelevant fuel : forall p b1 b2 s1 s2,
  seen s1 = seen s2 -> error s1 = error s2 ->
  outcome (dfs env fuel p b1 s1) = outcome (dfs env fuel p b2 s2).
Proof.
  induction fuel as [|fuel IH]; intros p b1 b2 s1 s2 Hs He; [reflexivity|].
  simpl. destruct (lstat env p) as [sb|e]; [|simpl; rewrite Hs; reflexivity].
  destruct (negb (S_ISDIR (st_mode sb))); [simpl; rewrite Hs, He; reflexivity|].
  destruct (opendir env p) as [names|e]; [|simpl; rewrite Hs; reflexivity].
  pose proof (dfs_loop_flag_irrelevant (fun q s => dfs env fuel q b1 s)
     (fun q s => dfs env fuel q b2 s) b1 b2 p
     (fun q s1 s2 H1 H2 => IH q b1 b2 s1 s2 H1 H2) names (kb_of sb) s1 s2 Hs He) as H.
  destruct (dfs_loop env _ b1 p names _ s1) as [[t1 s1']|],
           (dfs_loop env _ b2 p names _ s2) as [[t2 s2']|];
    simpl in H; try discriminate; [|reflexivity].
  injection H as -> Hs' He'. rewrite He'.
  destruct (error s2' =? 0)%Z; simpl; rewrite Hs', He'; reflexivity.
Qed.

End FlagIrrelevance.

(** ** The stored list of the registry only grows, never twice by the same inode

    These lemmas are about [data]; it is the memory of the registry only in
    runs that end with [oob_write] false (see [keeps_block]). *)


Lemma registry_grows_refl s : registry_grows s s.
Proof. split; [exists []; rewrite app_nil_r; reflexivity | tauto]. Qed.

Lemma registry_grows_trans s1 s2 s3 :
  registry_grows s1 s2 -> registry_grows s2 s3 -> registry_grows s1 s3.
Proof.
  intros [[a1 H1] N1] [[a2 H2] N2]. split; [|tauto].
  exists (a1 ++ a2). rewrite H2, H1, app_assoc. reflexivity.
Qed.

Lemma registry_grows_seen s s' : seen s' = seen s -> registry_grows s s'.
Proof. intros H. unfold registry_grows. rewrite H. apply registry_grows_refl. Qed.

Lemma InsertInode_data env da ino da' :
  InsertInode env da ino = Some da' -> data da' = data da ++ [ino].
Proof.
  unfold InsertInode. destruct (size da =? len da)%Z; [destruct (realloc_ok env _)|];
    intros H; try discriminate; inversion H; reflexivity.
Qed.

Lemma SearchInode_false da ino : SearchInode da ino = false -> ~ In ino (data da).
Proof.
  unfold SearchInode. intros H Hin.
  assert (existsb (Z.eqb ino) (data da) = true) as Ht.
  { apply existsb_exists. exists ino. split; [exact Hin | apply Z.eqb_refl]. }
  congruence.
Qed.

Lemma registry_grows_insert env s ino da :
  SearchInode (seen s) ino = false -> InsertInode env (seen s) ino = Some da ->
  registry_grows s (set_seen da s).
Proof.
  intros Hs Hi. pose proof (InsertInode_data _ _ _ _ Hi) as Hd.
  apply SearchInode_false in Hs. unfold registry_grows; simpl. split.
  - exists [ino]. exact Hd.
  - intros N. rewrite Hd. apply NoDup_app; [exact N | constructor; [simpl; tauto | constructor] |].
    intros a Ha [<- | []]. contradiction.
Qed.

Lemma registry_grows_print (b : bool) u q s s' :
  registry_grows s s' ->
  registry_grows s (if b then PrintDiskUsage u q s' else s').
Proof. intros H. destruct b; [|exact H]. exact H. Qed.

Section Registry.

Variable env : Env.

Lemma dfs_loop_registry rec b p :
  (forall q s t s', rec q s = Some (t, s') -> registry_grows s s') ->
  forall entries total s t s',
  dfs_loop env rec b p entries total s = Some (t, s') -> registry_grows s s'.
Proof.
  intros Hrec entries. induction entries as [|d_name rest IH]; intros total s t s' Hrun.
  - simpl in Hrun. injection Hrun as _ <-. apply registry_grows_refl.
  - destruct (is_dot_entry d_name) eqn:Hd.
    { rewrite dfs_loop_dot in Hrun by exact Hd. eapply IH; eassumption. }
    rewrite dfs_loop_entry in Hrun by exact Hd. cbv zeta in Hrun.
    destruct (lstat env _) as [sb|e].
    2:{ injection Hrun as _ <-. apply registry_grows_seen. reflexivity. }
    destruct (S_ISDIR (st_mode sb)) eqn:Hdir.
    + destruct (rec _ s) as [[u s1]|] eqn:Hr; [|discriminate].
      apply Hrec in Hr.
      destruct (error s1 =? 0)%Z.
      * apply IH in Hrun. eapply registry_grows_trans; [exact Hr|].
        eapply registry_grows_trans; [|exact Hrun].
        apply registry_grows_print, registry_grows_refl.
      * injection Hrun as _ <-. exact Hr.
    + assert (Hnext : forall t0 s0, registry_grows s s0 ->
        dfs_loop env rec b p rest t0
          (if b && negb false then PrintDiskUsage (kb_of sb) (snd (snprintf_path p d_name)) s0
           else s0) = Some (t, s') -> registry_grows s s').
      { intros t0 s0 H0 Hl. apply IH in Hl. eapply registry_grows_trans; [|exact Hl].
        apply registry_grows_print. exact H0. }
      destruct (S_ISREG (st_mode sb));
        [|eapply Hnext; [apply registry_grows_refl | exact Hrun]].
      destruct (1 <? st_nlink sb)%Z;
        [|eapply Hnext; [apply registry_grows_refl | exact Hrun]].
      destruct (SearchInode (seen s) (st_ino sb)) eqn:Hsearch; [eapply IH; exact Hrun|].
      destruct (InsertInode env (seen s) (st_ino sb)) as [da|] eqn:Hins.
      * eapply Hnext; [|exact Hrun]. eapply registry_grows_insert; eassumption.
      * injection Hrun as _ <-. apply registry_grows_seen. reflexivity.
Qed.

Lemma dfs_registry fuel : forall p b s t s',
  dfs env fuel p b s = Some (t, s') -> registry_grows s s'.
Proof.
  induction fuel as [|fuel IH]; intros p b s t s' Hrun; [discriminate|].
  simpl in Hrun. destruct (lstat env p) as [sb|e].
  2:{ injection Hrun as _ <-. apply registry_grows_seen. reflexivity. }
  destruct (negb (S_ISDIR (st_mode sb))).
  { injection Hrun as _ <-. apply registry_grows_seen. reflexivity. }
  destruct (opendir env p) as [names|e].
  2:{ injection Hrun as _ <-. apply registry_grows_seen. reflexivity. }
  destruct (dfs_loop env _ b p names _ s) as [[t1 s1]|] eqn:Hl; [|discriminate].
  apply dfs_loop_registry in Hl; [|intros q s0 t0 s0' H; eapply IH; exact H].
  destruct (error s1 =? 0)%Z; injection Hrun as _ <-; [|exact Hl].
  eapply registry_grows_trans; [exact Hl|]. apply registry_grows_seen. reflexivity.
Qed.

End Registry.

(** ** A store outside the block ends every faithful run *)

(** Between [s] and [s'] the slot count stays non-negative, and if no store
    has fallen outside the block by [s'], none had by [s] and the registry
    was never reallocated in between. *)
Definition keeps_block (s s' : State) : Prop :=
  (0 <= size (seen s) -> 0 <= size (seen s'))%Z /\
  (oob_write (seen s') = false -> (0 <= size (seen s))%Z ->
   oob_write (seen s) = false /\ size (seen s') = size (seen s) /\
   alloc_bytes (seen s') = alloc_bytes (seen s)).

(** A growth of the registry always stores outside the new block: the
    reallocation gives [2 * size] bytes and the store needs
    [(size + 1) * 8]. *)
Lemma InsertInode_no_growth env da ino da' :
  (0 <= size da)%Z -> InsertInode env da ino = Some da' ->
  (0 <= size da')%Z /\
  (oob_write da' = false ->
   oob_write da = false /\ size da' = size da /\ alloc_bytes da' = alloc_bytes da).
Proof.
  intros Hs. unfold InsertInode. destruct (size da =? len da)%Z eqn:E.
  - apply Z.eqb_eq in E. destruct (realloc_ok env (size da * 2)); [|discriminate].
    intros H. injection H as <-. simpl. split; [lia|].
    intros Ho. apply orb_false_iff in Ho. destruct Ho as [_ Ho].
    unfold store_in_bounds in Ho. simpl in Ho. apply negb_false_iff, Z.leb_le in Ho.
    unfold sizeof_ino_t in Ho. lia.
  - intros H. injection H as <-. simpl. split; [exact Hs|].
    intros Ho. apply orb_false_iff in Ho. destruct Ho as [Ho _]. auto.
Qed.

Lemma keeps_block_refl s : keeps_block s s.
Proof. split; [tauto | intros Ho _; auto]. Qed.

Lemma keeps_block_seen s s' : seen s' = seen s -> keeps_block s s'.
Proof. intros H. unfold keeps_block. rewrite H. apply keeps_block_refl. Qed.

Lemma keeps_block_trans s1 s2 s3 :
  keeps_block s1 s2 -> keeps_block s2 s3 -> keeps_block s1 s3.
Proof.
  intros [A1 B1] [A2 B2]. split; [tauto|]. intros Ho Hs.
  destruct (B2 Ho (A1 Hs)) as [Ho2 [E2 F2]]. destruct (B1 Ho2 Hs) as [Ho1 [E1 F1]].
  split; [exact Ho1|]. split; congruence.
Qed.

Lemma keeps_block_print (b : bool) u q s s' :
  keeps_block s s' -> keeps_block s (if b then PrintDiskUsage u q s' else s').
Proof. intros H. destruct b; exact H. Qed.

Lemma keeps_block_insert env s ino da :
  InsertInode env (seen s) ino = Some da -> keeps_block s (set_seen da s).
Proof.
  intros Hi. split; simpl.
  - intros Hs. exact (proj1 (InsertInode_no_growth env _ ino da Hs Hi)).
  - intros Ho Hs. exact (proj2 (InsertInode_no_growth env _ ino da Hs Hi) Ho).
Qed.

Section Block.

Variable env : Env.

Lemma dfs_loop_keeps_block rec b p :
  (forall q s t s', rec q s = Some (t, s') -> keeps_block s s') ->
  forall entries total s t s',
  dfs_loop env rec b p entries total s = Some (t, s') -> keeps_block s s'.
Proof.
  intros Hrec entries. induction entries as [|d_name rest IH]; intros total s t s' Hrun.
  - simpl in Hrun. injection Hrun as _ <-. apply keeps_block_refl.
  - destruct (is_dot_entry d_name) eqn:Hd.
    { rewrite dfs_loop_dot in Hrun by exact Hd. eapply IH; eassumption. }
    rewrite dfs_loop_entry in Hrun by exact Hd. cbv zeta in Hrun.
    destruct (lstat env _) as [sb|e].
    2:{ injection Hrun as _ <-. apply keeps_block_seen. reflexivity. }
    assert (Hnext : forall t0 s0, keeps_block s s0 ->
      dfs_loop env rec b p rest t0
        (if b && negb (S_ISDIR (st_mode sb))
         then PrintDiskUsage (kb_of sb) (snd (snprintf_path p d_name)) s0 else s0) = Some (t, s') ->
      keeps_block s s').
    { intros t0 s0 H0 Hl. apply IH in Hl. eapply keeps_block_trans; [|exact Hl].
      apply keeps_block_print. exact H0. }
    destruct (S_ISDIR (st_mode sb)).
    + destruct (rec _ s) as [[u s1]|] eqn:Hr; [|discriminate].
      apply Hrec in Hr. destruct (error s1 =? 0)%Z.
      * eapply Hnext; [exact Hr | exact Hrun].
      * injection Hrun as _ <-. exact Hr.
    + destruct (S_ISREG (st_mode sb)); [|eapply Hnext; [apply keeps_block_refl | exact Hrun]].
      destruct (1 <? st_nlink sb)%Z; [|eapply Hnext; [apply keeps_block_refl | exact Hrun]].
      destruct (SearchInode (seen s) (st_ino sb)); [eapply IH; exact Hrun|].
      destruct (InsertInode env (seen s) (st_ino sb)) as [da|] eqn:Hins.
      * eapply Hnext; [|exact Hrun]. eapply keeps_block_insert; exact Hins.
      * injection Hrun as _ <-. apply keeps_block_seen. reflexivity.
Qed.

Lemma dfs_keeps_block fuel : forall p b s t s',
  dfs env fuel p b s = Some (t, s') -> keeps_block s s'.
Proof.
  induction fuel as [|fuel IH]; intros p b s t s' Hrun; [discriminate|].
  simpl in Hrun. destruct (lstat env p) as [sb|e].
  2:{ injection Hrun as _ <-. apply keeps_block_seen. reflexivity. }
  destruct (negb (S_ISDIR (st_mode sb))).
  { injection Hrun as _ <-. apply keeps_block_seen. reflexivity. }
  destruct (opendir env p) as [names|e].
  2:{ injection Hrun as _ <-. apply keeps_block_seen. reflexivity. }
  destruct (dfs_loop env _ b p names _ s) as [[t1 s1]|] eqn:Hl; [|discriminate].
  apply dfs_loop_keeps_block in Hl; [|intros q s0 t0 s0' H; eapply IH; exact H].
  destruct (error s1 =? 0)%Z; injection Hrun as _ <-; [|exact Hl].
  eapply keeps_block_trans; [exact Hl|]. apply keeps_block_seen. reflexivity.
Qed.

End Block.

(** ** Path strings *)

Lemma length_append (a b : string) :
  String.length (a ++ b) = (String.length a + String.length b)%nat.
Proof. induction a as [|c a IH]; simpl; [reflexivity | rewrite IH; reflexivity]. Qed.

Lemma length_substring0 (n : nat) (s : string) :
  String.length (substring 0 n s) = Nat.min n (String.length s).
Proof.
  revert n. induction s as [|c s IH]; intros [|n]; simpl; try reflexivity.
  rewrite IH. reflexivity.
Qed.

Lemma substring0_prefix (p x : string) : substring 0 (String.length p) (p ++ x) = p.
Proof. induction p as [|c p IH]; simpl; [destruct x; reflexivity | rewrite IH; reflexivity]. Qed.

Lemma substring0_short (n : nat) (s : string) :
  (String.length s <= n)%nat -> substring 0 n s = s.
Proof.
  revert n. induction s as [|c s IH]; intros [|n] H; simpl in *; try reflexivity; [lia|].
  rewrite IH by lia. reflexivity.
Qed.


Lemma child_path_eq p d_name :
  child_path p d_name = substring 0 (kPathMax - 1) (p ++ "/" ++ d_name).
Proof. reflexivity. Qed.

Lemma length_child_path p d_name :
  String.length (child_path p d_name) =
  Nat.min (kPathMax - 1) (String.length p + S (String.length d_name)).
Proof.
  rewrite child_path_eq, length_substring0, length_append. reflexivity.
Qed.

Lemma child_path_fixed p d_name :
  String.length p = (kPathMax - 1)%nat -> child_path p d_name = p.
Proof.
  intros H. rewrite child_path_eq, <- H. apply substring0_prefix.
Qed.

Lemma child_path_join p d_name :
  (String.length (join_path p d_name) < kPathMax)%nat ->
  child_path p d_name = join_path p d_name.
Proof.
  intros H. rewrite child_path_eq. apply substring0_short.
  unfold join_path, kPathMax in *. lia.
Qed.


Lemma below_neq p q : below p q -> q <> p.
Proof. intros [H|H] <-; lia. Qed.

Lemma below_child p d_name :
  String.length p <> (kPathMax - 1)%nat -> below p (child_path p d_name).
Proof.
  intros H. unfold below. rewrite length_child_path. unfold kPathMax in *. lia.
Qed.

Lemma below_child_trans p d_name q :
  below (child_path p d_name) q -> below p q.
Proof.
  unfold below. rewrite length_child_path. unfold kPathMax. lia.
Qed.


(** ** What a traversal writes *)


Section Output.

Variable env : Env.

(** A directory whose path fills the buffer exactly is its own child path:
    the recursion into it never ends. *)
Lemma dfs_loop_fixed_path rec b p sb :
  String.length p = (kPathMax - 1)%nat ->
  lstat env p = inl sb -> S_ISDIR (st_mode sb) = true ->
  (forall s, rec p s = None) ->
  forall names total s, has_entry names = true ->
  dfs_loop env rec b p names total s = None.
Proof.
  intros Hlen Hst Hdir Hrec names. induction names as [|n rest IH]; intros total s Hn;
    [discriminate|].
  destruct (is_dot_entry n) eqn:Hd.
  - rewrite dfs_loop_dot by exact Hd. apply IH. simpl in Hn. rewrite Hd in Hn. exact Hn.
  - rewrite dfs_loop_entry by exact Hd. cbv zeta.
    change (snd (snprintf_path p n)) with (child_path p n).
    rewrite child_path_fixed by exact Hlen. rewrite Hst, Hdir, Hrec. reflexivity.
Qed.

Lemma dfs_fixed_path p b sb names :
  String.length p = (kPathMax - 1)%nat ->
  lstat env p = inl sb -> S_ISDIR (st_mode sb) = true ->
  opendir env p = inl names -> has_entry names = true ->
  forall fuel s, dfs env fuel p b s = None.
Proof.
  intros Hlen Hst Hdir Hop Hn fuel. induction fuel as [|fuel IH]; intros s; [reflexivity|].
  simpl. rewrite Hst, Hdir, Hop. simpl negb. cbv iota.
  rewrite (dfs_loop_fixed_path _ b p sb Hlen Hst Hdir IH names _ s Hn). reflexivity.
Qed.

Lemma emitted_print (b : bool) p q u s :
  below p q ->
  exists recs, Forall (fun r => below p (snd r)) recs /\
    log (if b then PrintDiskUsage u q s else s) = log s ++ records recs /\
    seen (if b then PrintDiskUsage u q s else s) = seen s /\
    error (if b then PrintDiskUsage u q s else s) = error s.
Proof.
  intros H. destruct b.
  - exists [(u, q)]. split; [constructor; [exact H | constructor]|]. repeat split.
  - exists []. split; [constructor|]. simpl. rewrite app_nil_r. repeat split.
Qed.

Lemma records_app a b : records (a ++ b) = records a ++ records b.
Proof. apply map_app. Qed.

Lemma emitted_prepend p tail s s1 s' recs1 :
  Forall (fun r => below p (snd r)) recs1 ->
  log s1 = log s ++ records recs1 ->
  emitted p tail s1 s' -> emitted p tail s s'.
Proof.
  intros Hf Hl [recs2 [Hf2 Hcase]]. exists (recs1 ++ recs2). split.
  - apply Forall_app. split; assumption.
  - rewrite records_app. destruct Hcase as [[He Hlog] | [He [m Hlog]]].
    + left. split; [exact He|]. rewrite Hlog, Hl, !app_assoc. reflexivity.
    + right. split; [exact He|]. exists m. rewrite Hlog, Hl, !app_assoc. reflexivity.
Qed.

Lemma emitted_error p tail s s' m :
  error s' <> 0%Z -> log s' = log s ++ [Stderr m] -> emitted p tail s s'.
Proof.
  intros He Hl. exists []. split; [constructor|]. right. split; [exact He|].
  exists m. rewrite Hl. reflexivity.
Qed.

Lemma dfs_loop_emitted rec b p :
  (forall c s t s', rec c s = Some (t, s') -> error s = 0%Z -> emitted c [Stdout t c] s s') ->
  forall names,
  (String.length p = (kPathMax - 1)%nat -> has_entry names = false) ->
  forall total s t s', dfs_loop env rec b p names total s = Some (t, s') ->
  error s = 0%Z -> emitted p [] s s'.
Proof.
  intros Hrec names. induction names as [|n rest IH]; intros Hlen total s t s' Hrun He0.
  - simpl in Hrun. injection Hrun as _ <-. exists []. split; [constructor|].
    left. split; [exact He0|]. simpl. rewrite app_nil_r. reflexivity.
  - assert (Hlen' : String.length p = (kPathMax - 1)%nat -> has_entry rest = false).
    { intros H. specialize (Hlen H). simpl in Hlen. apply orb_false_iff in Hlen. tauto. }
    destruct (is_dot_entry n) eqn:Hd.
    { rewrite dfs_loop_dot in Hrun by exact Hd. eapply IH; eassumption. }
    assert (Hne : String.length p <> (kPathMax - 1)%nat).
    { intros H. specialize (Hlen H). simpl in Hlen. rewrite Hd in Hlen. discriminate. }
    pose proof (below_child p n Hne) as Hbc.
    rewrite dfs_loop_entry in Hrun by exact Hd. cbv zeta in Hrun.
    change (snd (snprintf_path p n)) with (child_path p n) in Hrun.
    destruct (lstat env (child_path p n)) as [sb|e].
    2:{ injection Hrun as _ <-. eapply emitted_error; [discriminate | reflexivity]. }
    assert (Hnext : forall t0 s0, log s0 = log s -> error s0 = 0%Z ->
      dfs_loop env rec b p rest t0
        (if b && negb (S_ISDIR (st_mode sb)) then
           PrintDiskUsage (kb_of sb) (child_path p n) s0 else s0) = Some (t, s') ->
      emitted p [] s s').
    { intros t0 s0 Hl0 He Hl.
      destruct (emitted_print (b && negb (S_ISDIR (st_mode sb))) p (child_path p n)
                  (kb_of sb) s0 Hbc) as [recs1 [Hf1 [Hlog1 [_ Herr1]]]].
      eapply emitted_prepend; [exact Hf1 | rewrite Hlog1, Hl0; reflexivity |].
      eapply IH; [exact Hlen' | exact Hl | rewrite Herr1; exact He]. }
    destruct (S_ISDIR (st_mode sb)) eqn:Hdir.
    + destruct (rec (child_path p n) s) as [[u s1]|] eqn:Hr; [|discriminate].
      destruct (Hrec _ _ _ _ Hr He0) as [recs1 [Hf1 Hcase]].
      assert (Hf1' : Forall (fun r => below p (snd r)) (recs1 ++ [(u, child_path p n)])).
      { apply Forall_app. split; [|constructor; [exact Hbc | constructor]].
        eapply Forall_impl; [|exact Hf1]. intros r. apply below_child_trans. }
      destruct (error s1 =? 0)%Z eqn:He1.
      * apply Z.eqb_eq in He1.
        destruct Hcase as [[_ Hlog1] | [Hne1 _]]; [|contradiction].
        rewrite andb_false_r in Hrun.
        eapply emitted_prepend; [exact Hf1' | rewrite records_app; exact Hlog1 |].
        eapply IH; [exact Hlen' | exact Hrun | exact He1].
      * apply Z.eqb_neq in He1. injection Hrun as _ <-.
        destruct Hcase as [[He _] | [_ [m Hlog1]]]; [contradiction|].
        exists recs1. split.
        { eapply Forall_impl; [|exact Hf1]. intros r. apply below_child_trans. }
        right. split; [exact He1 | exists m; exact Hlog1].
    + destruct (S_ISREG (st_mode sb)).
      * destruct (1 <? st_nlink sb)%Z.
        -- destruct (SearchInode (seen s) (st_ino sb)).
           ++ eapply IH; eassumption.
           ++ destruct (InsertInode env (seen s) (st_ino sb)) as [da|].
              ** apply (Hnext _ (set_seen da s) eq_refl He0 Hrun).
              ** injection Hrun as _ <-. eapply emitted_error; [discriminate | reflexivity].
        -- eapply Hnext; [reflexivity | exact He0 | exact Hrun].
      * eapply Hnext; [reflexivity | exact He0 | exact Hrun].
Qed.

Lemma dfs_emitted fuel : forall p b s t s',
  dfs env fuel p b s = Some (t, s') -> error s = 0%Z -> emitted p [Stdout t p] s s'.
Proof.
  induction fuel as [|fuel IH]; intros p b s t s' Hrun He0; [discriminate|].
  pose proof Hrun as Hrun0. simpl in Hrun.
  destruct (lstat env p) as [sb|e] eqn:Hst.
  2:{ injection Hrun as _ <-. eapply emitted_error; [discriminate | reflexivity]. }
  destruct (S_ISDIR (st_mode sb)) eqn:Hdir; simpl negb in Hrun; cbv iota in Hrun.
  2:{ injection Hrun as <- <-. exists []. split; [constructor|]. left. split; [exact He0|].
      reflexivity. }
  destruct (opendir env p) as [names|e] eqn:Hop.
  2:{ injection Hrun as _ <-. eapply emitted_error; [discriminate | reflexivity]. }
  assert (Hlen : String.length p = (kPathMax - 1)%nat -> has_entry names = false).
  { intros H. destruct (has_entry names) eqn:Hn; [|reflexivity].
    rewrite (dfs_fixed_path p b sb names H Hst Hdir Hop Hn (S fuel) s) in Hrun0.
    discriminate. }
  destruct (dfs_loop env _ b p names _ s) as [[t1 s1]|] eqn:Hl; [|discriminate].
  destruct (dfs_loop_emitted (fun q s => dfs env fuel q b s) b p
              (fun c s t s' H => IH c b s t s' H) names Hlen _ _ _ _ Hl He0)
    as [recs [Hf Hcase]].
  exists recs. split; [exact Hf|].
  destruct (error s1 =? 0)%Z eqn:He1.
  - apply Z.eqb_eq in He1. injection Hrun as <- <-.
    destruct Hcase as [[_ Hlog] | [Hne _]]; [|contradiction].
    left. split; [exact He1|]. simpl. rewrite Hlog, app_nil_r, app_assoc. reflexivity.
  - apply Z.eqb_neq in He1. injection Hrun as _ <-.
    destruct Hcase as [[He _] | Hr]; [contradiction | right; exact Hr].
Qed.

End Output.

(** ** The traversal against the spec's walk *)

Lemma account_app b R es1 es2 :
  account b R (es1 ++ es2) =
  let '(ps1, R1, t1) := account b R es1 in
  let '(ps2, R2, t2) := account b R1 es2 in (ps1 ++ ps2, R2, (t1 + t2)%Z).
Proof.
  revert R. induction es1 as [|[q st] es1 IH]; intros R.
  - simpl. destruct (account b R es2) as [[ps R2] t2]. reflexivity.
  - simpl. rewrite !IH.
    destruct (S_ISDIR (st_mode st)).
    + destruct (account b R es1) as [[ps1 R1] t1].
      destruct (account b R1 es2) as [[ps2 R2] t2]. rewrite Z.add_assoc. reflexivity.
    + destruct (S_ISREG (st_mode st)).
      * destruct (1 <? st_nlink st)%Z.
        -- destruct (existsb (Z.eqb (st_ino st)) R).
           ++ destruct (account b R es1) as [[ps1 R1] t1].
              destruct (account b R1 es2) as [[ps2 R2] t2]. reflexivity.
           ++ destruct (account b (R ++ [st_ino st]) es1) as [[ps1 R1] t1].
              destruct (account b R1 es2) as [[ps2 R2] t2]. rewrite app_assoc.
              rewrite Z.add_assoc. reflexivity.
        -- destruct (account b R es1) as [[ps1 R1] t1].
           destruct (account b R1 es2) as [[ps2 R2] t2]. rewrite app_assoc.
           rewrite Z.add_assoc. reflexivity.
      * destruct (account b R es1) as [[ps1 R1] t1].
        destruct (account b R1 es2) as [[ps2 R2] t2]. rewrite app_assoc. reflexivity.
Qed.


Lemma accounted_app b es1 es2 u1 u2 s s1 s2 :
  accounted b es1 u1 s s1 -> error s1 = 0%Z -> accounted b es2 u2 s1 s2 ->
  accounted b (es1 ++ es2) (u1 + u2) s s2.
Proof.
  intros [H1 _] He1 [H2 H2e]. split.
  - intros He2. destruct (H1 He1) as [recs1 [Hl1 Ha1]].
    destruct (H2 He2) as [recs2 [Hl2 Ha2]]. exists (recs1 ++ recs2). split.
    + rewrite Hl2, Hl1, records_app, app_assoc. reflexivity.
    + rewrite account_app, Ha1, Ha2, map_app. reflexivity.
  - intros He2. destruct (H2e He2) as [q [st [Hin Hst]]]. exists q, st.
    split; [apply in_or_app; right; exact Hin | exact Hst].
Qed.

Lemma accounted_error b es u s s' q st :
  error s' <> 0%Z -> In (q, st) es -> S_ISREG (st_mode st) = true -> (1 < st_nlink st)%Z ->
  accounted b es u s s'.
Proof.
  intros He Hin Hr Hn. split; [intros H; contradiction|].
  intros _. exists q, st. repeat split; assumption.
Qed.

Lemma accounted_error_sub b es es' u u' s s' s'' :
  error s' <> 0%Z -> (forall x, In x es -> In x es') ->
  accounted b es u s'' s' -> accounted b es' u' s s'.
Proof.
  intros He Hsub [_ H]. destruct (H He) as [q [st [Hin Hst]]].
  split; [intros H'; contradiction|]. intros _. exists q, st. split; [apply Hsub; exact Hin | exact Hst].
Qed.

Lemma accounted_nil b s : error s = 0%Z -> accounted b [] 0 s s.
Proof.
  intros He. split; [|intros H; contradiction].
  intros _. exists []. split; [rewrite app_nil_r; reflexivity | reflexivity].
Qed.

Lemma accounted_leaf b c st s s0 R' u :
  data (seen s0) = R' -> log s0 = log s -> error s0 = 0%Z ->
  account b (data (seen s)) [(c, st)] = (if b then [c] else [], R', u) ->
  accounted b [(c, st)] u s
    (if b && negb false then PrintDiskUsage (kb_of st) c s0 else s0).
Proof.
  intros Hd Hl He Ha. split; [|intros H; exfalso; apply H; destruct b; exact He].
  intros _. exists (if b then [(kb_of st, c)] else []). rewrite Ha, <- Hd.
  destruct b; simpl; rewrite Hl; [split; reflexivity|].
  rewrite app_nil_r. split; reflexivity.
Qed.

Section Refinement.

Variable env : Env.

Lemma dfs_loop_walk rec b p f :
  (forall c es s, walk_spec env f c = Some es ->
     (exists st, lstat env c = inl st /\ S_ISDIR (st_mode st) = true) ->
     error s = 0%Z -> exists t s', rec c s = Some (t, s') /\ accounted b es t s s') ->
  forall names esc, walk_children (walk_spec env f) p names = Some esc ->
  forall total s, error s = 0%Z ->
  exists t s', dfs_loop env rec b p names total s = Some (t, s') /\
               accounted b esc (t - total) s s'.
Proof.
  intros Hrec names. induction names as [|n rest IH]; intros esc Hw total s He0.
  - simpl in Hw. injection Hw as <-. exists total, s. split; [reflexivity|].
    rewrite Z.sub_diag. apply accounted_nil. exact He0.
  - cbn [walk_children] in Hw. destruct (is_dot_entry n) eqn:Hd.
    { rewrite dfs_loop_dot by exact Hd. eapply IH; eassumption. }
    destruct (kPathMax <=? String.length (join_path p n))%nat eqn:Hlen; [discriminate|].
    apply Nat.leb_gt in Hlen.
    destruct (walk_spec env f (join_path p n)) as [es_c|] eqn:Hwc; [|discriminate].
    destruct (walk_children (walk_spec env f) p rest) as [es'|] eqn:Hwr; [|discriminate].
    injection Hw as <-.
    rewrite dfs_loop_entry by exact Hd. cbv zeta.
    change (snd (snprintf_path p n)) with (child_path p n).
    rewrite (child_path_join p n Hlen).
    set (c := join_path p n) in *.
    pose proof Hwc as Hwc'. destruct f as [|f']; [discriminate|]. simpl in Hwc'.
    destruct (lstat env c) as [st|e] eqn:Hst; [|discriminate].
    destruct (S_ISDIR (st_mode st)) eqn:Hdir.
    + destruct (Hrec c es_c s Hwc (ex_intro _ st (conj Hst Hdir)) He0)
        as [u [s1 [Hr Ha1]]].
      rewrite Hr. destruct (error s1 =? 0)%Z eqn:He1.
      * apply Z.eqb_eq in He1. rewrite andb_false_r.
        destruct (IH es' eq_refl (total + u)%Z s1 He1) as [t [s' [Hl Ha2]]].
        exists t, s'. split; [exact Hl|].
        replace (t - total)%Z with (u + (t - (total + u)))%Z by lia.
        eapply accounted_app; eassumption.
      * apply Z.eqb_neq in He1. exists (total + u)%Z, s1. split; [reflexivity|].
        apply (accounted_error_sub b es_c _ u _ _ _ s He1); [|exact Ha1].
        intros x Hx. apply in_or_app. left. exact Hx.
    + simpl in Hwc'. injection Hwc' as <-.
      (* the leaf, then the remaining entries *)
      assert (Hstep : forall s0 u t0, t0 = (total + u)%Z -> error s0 = 0%Z ->
        accounted b [(c, st)] u s
          (if b && negb false then PrintDiskUsage (kb_of st) c s0 else s0) ->
        exists t s',
          dfs_loop env rec b p rest t0
            (if b && negb false then PrintDiskUsage (kb_of st) c s0 else s0) = Some (t, s') /\
          accounted b ([(c, st)] ++ es') (t - total) s s').
      { intros s0 u t0 -> Hes0 Ha1.
        assert (He' : error (if b && negb false then PrintDiskUsage (kb_of st) c s0 else s0)
                      = 0%Z) by (destruct b; exact Hes0).
        destruct (IH es' eq_refl (total + u)%Z _ He') as [t [s' [Hl Ha2]]].
        exists t, s'. split; [exact Hl|].
        replace (t - total)%Z with (u + (t - (total + u)))%Z by lia.
        eapply accounted_app; eassumption. }
      destruct (S_ISREG (st_mode st)) eqn:Hreg.
      * destruct (1 <? st_nlink st)%Z eqn:Hnl.
        -- destruct (SearchInode (seen s) (st_ino st)) eqn:Hs.
           ++ destruct (IH es' eq_refl total s He0) as [t [s' [Hl Ha2]]].
              exists t, s'. split; [exact Hl|].
              replace (t - total)%Z with (0 + (t - total))%Z by lia.
              eapply accounted_app; [|exact He0|exact Ha2].
              split; [|intros H; contradiction].
              intros _. exists []. split; [rewrite app_nil_r; reflexivity|].
              simpl. rewrite Hdir, Hreg, Hnl. unfold SearchInode in Hs. rewrite Hs.
              reflexivity.
           ++ destruct (InsertInode env (seen s) (st_ino st)) as [da|] eqn:Hins.
              ** apply (Hstep (set_seen da s) (kb_of st)); [reflexivity|exact He0|].
                 apply accounted_leaf with (R' := data da); [reflexivity|reflexivity|exact He0|].
                 simpl. rewrite Hdir, Hreg, Hnl. unfold SearchInode in Hs. rewrite Hs.
                 rewrite (InsertInode_data _ _ _ _ Hins), Z.add_0_r.
                 destruct b; reflexivity.
              ** exists total, (set_error ENOMEM (emit (Stderr ("failed to insert inode '"
                   ++ string_of_ino (st_ino st) ++ "'" ++ nl)) s)).
                 split; [reflexivity|].
                 apply (accounted_error _ _ _ _ _ c st); [discriminate| |exact Hreg|].
                 { simpl. left. reflexivity. }
                 { apply Z.ltb_lt. exact Hnl. }
        -- apply (Hstep s (kb_of st)); [reflexivity|exact He0|].
           apply accounted_leaf with (R' := data (seen s)); [reflexivity|reflexivity|exact He0|].
           simpl. rewrite Hdir, Hreg, Hnl, Z.add_0_r. destruct b; reflexivity.
      * apply (Hstep s 0%Z); [lia|exact He0|].
        apply accounted_leaf with (R' := data (seen s)); [reflexivity|reflexivity|exact He0|].
        simpl. rewrite Hdir, Hreg. destruct b; reflexivity.
Qed.

(** Over a directory whose walk succeeds, [dfs] terminates, and when it
    reports no error its records, registry and total are those of
    [account] over the post-order listing. *)
Lemma dfs_walk b fuel : forall p es s,
  walk_spec env fuel p = Some es ->
  (exists st, lstat env p = inl st /\ S_ISDIR (st_mode st) = true) ->
  error s = 0%Z ->
  exists t s', dfs env fuel p b s = Some (t, s') /\ accounted b es t s s'.
Proof.
  induction fuel as [|fuel IH]; intros p es s Hw [st [Hst Hdir]] He0; [discriminate|].
  simpl in Hw. rewrite Hst, Hdir in Hw. simpl negb in Hw. cbv iota in Hw.
  destruct (opendir env p) as [names|e] eqn:Hop; [|discriminate].
  destruct (walk_children (walk_spec env fuel) p names) as [esc|] eqn:Hwc; [|discriminate].
  injection Hw as <-.
  destruct (dfs_loop_walk (fun q s => dfs env fuel q b s) b p fuel
              (fun c es s H1 H2 H3 => IH c es s H1 H2 H3) names esc Hwc (kb_of st) s He0)
    as [t1 [s1 [Hl Ha]]].
  simpl. rewrite Hst, Hdir, Hop. simpl negb. cbv iota. rewrite Hl.
  destruct (error s1 =? 0)%Z eqn:He1.
  - apply Z.eqb_eq in He1. eexists; eexists; split; [reflexivity|].
    replace t1 with ((t1 - kb_of st) + kb_of st)%Z at 1 by lia.
    eapply accounted_app; [exact Ha | exact He1 |].
    split; [|intros H; exfalso; apply H; exact He1].
    intros _. exists [(t1, p)]. split; [reflexivity|].
    simpl. rewrite Hdir, Z.add_0_r. reflexivity.
  - apply Z.eqb_neq in He1. exists t1, s1. split; [reflexivity|].
    apply (accounted_error_sub b esc _ (t1 - kb_of st) _ _ _ s He1); [|exact Ha].
    intros x Hx. apply in_or_app. left. exact Hx.
Qed.

End Refinement.

(** ** Accounting over a listing, and what [du] writes *)

Lemma account_dedup b R es :
  account b R es =
  ((if b then map fst (dedup_entries R es) else map fst (filter is_dir_entry es)),
   R ++ map st_ino (filter multi_link (map snd (dedup_entries R es))),
   usage_sum (dedup_entries R es)).
Proof.
  revert R. induction es as [|[q [m blk ino nlk]] rest IH]; intros R.
  - simpl. rewrite app_nil_r. destruct b; reflexivity.
  - destruct m; simpl; rewrite ?IH.
    + destruct b; reflexivity.
    + unfold multi_link, kb_of, usage_of; simpl. destruct (1 <? nlk)%Z eqn:Hn; simpl.
      * destruct (existsb (Z.eqb ino) R); simpl; rewrite ?IH; [reflexivity|].
        rewrite Hn; simpl. rewrite <- app_assoc. destruct b; reflexivity.
      * rewrite ?IH, ?Hn. destruct b; reflexivity.
    + destruct b; reflexivity.
    + destruct b; reflexivity.
Qed.

Lemma subseq_refl {A : Type} (l : list A) : subseq l l.
Proof. induction l; constructor; assumption. Qed.

Lemma subseq_map {A B : Type} (f : A -> B) l l' :
  subseq l l' -> subseq (map f l) (map f l').
Proof. induction 1; simpl; constructor; assumption. Qed.

Lemma subseq_filter {A : Type} (f : A -> bool) l : subseq (filter f l) l.
Proof.
  induction l as [|x l IH]; simpl; [constructor|].
  destruct (f x); constructor; exact IH.
Qed.

Lemma dedup_subseq R es : subseq (dedup_entries R es) es.
Proof.
  revert R. induction es as [|[q st] rest IH]; intros R; simpl; [constructor|].
  destruct (multi_link st); [destruct (existsb (Z.eqb (st_ino st)) R)|];
    constructor; apply IH.
Qed.

Lemma dedup_keeps R es q st :
  In (q, st) es -> multi_link st = false -> In (q, st) (dedup_entries R es).
Proof.
  revert R. induction es as [|[q' st'] rest IH]; intros R Hin Hm; [destruct Hin|].
  destruct Hin as [Heq | Hin].
  - injection Heq as <- <-. simpl. rewrite Hm. left. reflexivity.
  - simpl. destruct (multi_link st'); [destruct (existsb (Z.eqb (st_ino st')) R)|];
      try right; apply IH; assumption.
Qed.

Lemma dedup_all R es :
  (forall q st, In (q, st) es -> multi_link st = false) -> dedup_entries R es = es.
Proof.
  revert R. induction es as [|[q st] rest IH]; intros R H; [reflexivity|].
  simpl. rewrite (H q st (or_introl eq_refl)). f_equal.
  apply IH. intros q' st' Hin. apply (H q' st'). right. exact Hin.
Qed.

Lemma dedup_registers R es q st :
  In (q, st) es -> multi_link st = true ->
  In (st_ino st) (R ++ map st_ino (filter multi_link (map snd (dedup_entries R es)))).
Proof.
  revert R. induction es as [|[q' st'] rest IH]; intros R Hin Hm; [destruct Hin|].
  simpl. destruct Hin as [Heq | Hin].
  - injection Heq as -> ->. rewrite Hm.
    destruct (existsb (Z.eqb (st_ino st)) R) eqn:He.
    + apply in_or_app. left. apply existsb_exists in He. destruct He as [x [Hx Hq]].
      apply Z.eqb_eq in Hq. subst x. exact Hx.
    + simpl. rewrite Hm. simpl. apply in_or_app. right. left. reflexivity.
  - destruct (multi_link st') eqn:Hm'.
    + destruct (existsb (Z.eqb (st_ino st')) R); [apply IH; assumption|].
      simpl. rewrite Hm'. simpl.
      specialize (IH (R ++ [st_ino st']) Hin Hm). rewrite <- app_assoc in IH. exact IH.
    + simpl. rewrite Hm'. apply IH; assumption.
Qed.

Lemma dir_not_multi st : S_ISDIR (st_mode st) = true -> multi_link st = false.
Proof. unfold multi_link. destruct (st_mode st); simpl; congruence. Qed.

Lemma records_no_stderr recs m : ~ In (Stderr m) (records recs).
Proof.
  induction recs as [|r recs IH]; simpl; [tauto|]. intros [H|H]; [discriminate|tauto].
Qed.

Lemma records_below_not_root p recs u :
  Forall (fun r => below p (snd r)) recs -> ~ In (Stdout u p) (records recs).
Proof.
  intros Hf Hin. unfold records in Hin. apply in_map_iff in Hin.
  destruct Hin as [r [Hr Hin]]. injection Hr as _ Hp.
  rewrite Forall_forall in Hf. apply (below_neq p (snd r) (Hf r Hin)). exact Hp.
Qed.

Lemma stderr_last recs m L1 m' L2 :
  records recs ++ [Stderr m] = L1 ++ Stderr m' :: L2 -> L2 = [].
Proof.
  revert L1. induction recs as [|r recs IH]; intros L1 H.
  - destruct L1 as [|x L1]; simpl in H; injection H as _ H; [now symmetry|].
    destruct L1; discriminate.
  - destruct L1 as [|x L1]; simpl in H; [discriminate|].
    injection H as _ H. exact (IH L1 H).
Qed.

Lemma InitDynamicArray_some env n sz da ev :
  InitDynamicArray env n sz = (Some da, ev) -> ev = [] /\ data da = [].
Proof.
  unfold InitDynamicArray.
  destruct (malloc_ok env sizeof_DynamicArray), (malloc_ok env (n * sz)); simpl;
    intros H; try discriminate; injection H as <- <-; split; reflexivity.
Qed.

Lemma InitDynamicArray_none env n sz ev :
  InitDynamicArray env n sz = (None, ev) -> exists m, ev = [Stderr m].
Proof.
  unfold InitDynamicArray, perror.
  destruct (malloc_ok env sizeof_DynamicArray), (malloc_ok env (n * sz)); simpl;
    intros H; try discriminate; injection H as <-; eexists; reflexivity.
Qed.

(** What a failing [dfs] writes: records below its root, then one
    diagnostic. *)
Lemma dfs_error_output env fuel p b s t s' :
  dfs env fuel p b s = Some (t, s') -> error s = 0%Z -> error s' <> 0%Z ->
  exists recs m, log s' = log s ++ records recs ++ [Stderr m] /\
    Forall (fun r => below p (snd r)) recs.
Proof.
  intros Hrun He0 He. destruct (dfs_emitted env fuel p b s t s' Hrun He0) as [recs [Hf Hcase]].
  destruct Hcase as [[He' _] | [_ [m Hl]]]; [contradiction|].
  exists recs, m. split; assumption.
Qed.

(** A [du] that wrote a diagnostic fails, writes nothing after its first
    diagnostic, and no record for its root. *)
Lemma du_failure env fuel p b r L :
  du env fuel p b = Some (r, L) -> (exists m, In (Stderr m) L) ->
  r = (-1)%Z /\
  (forall L1 m L2, L = L1 ++ Stderr m :: L2 -> forall u q, ~ In (Stdout u q) L2) /\
  (forall u, ~ In (Stdout u p) L).
Proof.
  unfold du. destruct (InitDynamicArray env 8 sizeof_ino_t) as [[da|] ev] eqn:Hi.
  - apply InitDynamicArray_some in Hi. destruct Hi as [-> _].
    destruct (dfs env fuel p b (mkState da 0 [])) as [[t s]|] eqn:Hd; [|discriminate].
    destruct (dfs_emitted env fuel p b _ t s Hd eq_refl) as [recs [Hf Hcase]].
    destruct Hcase as [[He Hl] | [He [m Hl]]]; simpl in Hl.
    + rewrite He. simpl. intros H. injection H as <- <-. intros [m Hm].
      rewrite Hl in Hm. apply in_app_or in Hm. destruct Hm as [Hm|[Hm|[]]];
        [apply records_no_stderr in Hm; contradiction | discriminate].
    + apply Z.eqb_neq in He. rewrite He. intros H. injection H as <- <-. intros _.
      rewrite Hl. split; [reflexivity|]. split.
      * intros L1 m' L2 HL. rewrite (stderr_last _ _ _ _ _ HL). simpl. tauto.
      * intros u Hin. apply in_app_or in Hin. destruct Hin as [Hin|[Hin|[]]];
          [exact (records_below_not_root p recs u Hf Hin) | discriminate].
  - apply InitDynamicArray_none in Hi. destruct Hi as [m0 ->].
    intros H. injection H as <- HL0. intros _. split; [reflexivity|].
    assert (Hno : forall u q, ~ In (Stdout u q) L).
    { intros u q. rewrite <- HL0. simpl. unfold perror. intros [H|[H|[]]]; discriminate. }
    split.
    + intros L1 m L2 HL u q Hin. apply (Hno u q). rewrite HL.
      apply in_or_app. right. right. exact Hin.
    + intros u. apply Hno.
Qed.

Lemma dfs_nondir_root env fuel p b s st :
  lstat env p = inl st -> S_ISDIR (st_mode st) = false ->
  dfs env (S fuel) p b s = Some (kb_of st, PrintDiskUsage (kb_of st) p s).
Proof. intros H1 H2. simpl. rewrite H1, H2. reflexivity. Qed.

(** ** The claims *)

(** C1 (code bug).  A later link is counted again once the registry has
    grown.  In g4_env the directory d holds f1 .. f9, nine regular files
    with two links each (inodes 11 .. 19), and then g4, a second link to
    inode 14, the inode of f4.  The spec's first-encounter accounting skips
    d/g4 and gives d the usage 40.  In [dfs] the insertion for f9 finds
    the 8-slot registry full: [realloc(data, 16)] leaves a 16-byte block,
    which holds the first two identifiers only, while 14 was stored at
    [inodes[3]], bytes 24 to 32, now outside the block.  The model keeps
    the whole list and still finds 14 there; the program reads outside its
    block, which is undefined behaviour.  When the lookup sees only the
    identifiers inside the block, g4 is inserted again and adds its 4 KiB,
    so d totals 44. *)
Theorem hardlink_counted_again :
  option_map (fun es => (usage_sum (dedup_entries [] es),
                         existsb (String.eqb "d/g4") (map fst (dedup_entries [] es))))
    (walk_spec g4_env 3 "d") = Some (40%Z, false) /\
  lstat g4_env "d/f4" = inl (mkStat S_IFREG 8 14 2) /\
  lstat g4_env "d/g4" = inl (mkStat S_IFREG 8 14 2) /\
  option_map (fun r => (fst r, seen (snd r), error (snd r)))
    (dfs_loop g4_env (fun q s => dfs g4_env 2 q false s) false "d" g4_prefix 4 initial_state) =
    Some (40%Z, g4_registry, 0%Z) /\
  nth 3 (data g4_registry) 0%Z = 14%Z /\
  block_contents g4_registry = [11; 12]%Z /\
  option_map (fun r => (fst r, error (snd r)))
    (dfs_loop g4_env (fun q s => dfs g4_env 2 q false s) false "d" ["g4"%string] 40
       (mkState (in_block g4_registry) 0 [])) = Some (44%Z, 0%Z).
Proof.
  refine (conj _ (conj _ (conj _ (conj _ (conj _ (conj _ _)))))); vm_compute; reflexivity.
Qed.

(** C2 (code bug).  A symbolic link is left out of its directory's total.
    In symlink_env the directory d, of no blocks, holds l, a symbolic link
    of eight blocks (4 KiB); the tree has no hard links.  The spec asks for
    the root's usage to be the sum of the own usage of every entry, 4.
    [dfs] adds an entry's usage to [total] only for a directory or a
    regular file, so d is reported with 0, although d/l is printed with 4
    in files-enabled mode, and d/l given as the root is reported with 4. *)
Theorem symlink_left_out_of_total :
  walk_spec symlink_env 3 "d" =
    Some [("d/l"%string, mkStat S_IFLNK 8 2 1); ("d"%string, mkStat S_IFDIR 0 1 2)] /\
  forallb (fun e => negb (multi_link (snd e)))
    [("d/l"%string, mkStat S_IFLNK 8 2 1); ("d"%string, mkStat S_IFDIR 0 1 2)] = true /\
  own_usage_sum [("d/l"%string, mkStat S_IFLNK 8 2 1); ("d"%string, mkStat S_IFDIR 0 1 2)] = 4%Z /\
  du symlink_env 3 "d" true = Some (0%Z, [Stdout 4 "d/l"; Stdout 0 "d"]) /\
  du symlink_env 3 "d/l" false = Some (0%Z, [Stdout 4 "d/l"]).
Proof. refine (conj _ (conj _ (conj _ (conj _ _)))); vm_compute; reflexivity. Qed.

(** C3.  For every error-free traversal of a directory whose walk succeeds,
    the usage records are a subsequence of the post-order listing
    [walk_spec], and that subsequence contains every directory.  The
    listing puts each directory after all of its descendants and before
    the subtrees of the siblings enumerated after it.  So every
    directory's record comes strictly after its descendants' records and
    strictly before the records of those later sibling subtrees. *)
Theorem records_post_order (env : Env) b fuel p es s t s' :
  walk_spec env fuel p = Some es ->
  (exists st, lstat env p = inl st /\ S_ISDIR (st_mode st) = true) ->
  error s = 0%Z -> dfs env fuel p b s = Some (t, s') -> error s' = 0%Z ->
  exists recs, log s' = log s ++ records recs /\
    subseq (map snd recs) (map fst es) /\
    (forall q st, In (q, st) es -> S_ISDIR (st_mode st) = true -> In q (map snd recs)).
Proof.
  intros Hw Hd He0 Hrun He'.
  destruct (dfs_walk env b fuel p es s Hw Hd He0) as [t1 [s1 [Hr1 [Hok _]]]].
  rewrite Hrun in Hr1. injection Hr1 as <- <-.
  destruct (Hok He') as [recs [Hl Ha]]. rewrite account_dedup in Ha.
  injection Ha as Hp _ _.
  exists recs. split; [exact Hl|]. rewrite <- Hp. split.
  - destruct b; apply subseq_map; [apply dedup_subseq | apply subseq_filter].
  - intros q st Hin Hdir. destruct b.
    + apply (in_map fst _ (q, st)). apply dedup_keeps; [exact Hin | apply dir_not_multi; exact Hdir].
    + apply (in_map fst _ (q, st)). apply filter_In. split; [exact Hin | exact Hdir].
Qed.

(** The ordering on tree_env. *)
Lemma records_post_order_witness :
  exists recs, log (snd (tree_run true)) = records recs /\
    subseq (map snd recs) (map fst tree_listing).
Proof.
  destruct (records_post_order tree_env true 10 "d"%string tree_listing initial_state
              (fst (tree_run true)) (snd (tree_run true))) as [recs [Hl [Hs _]]].
  - vm_compute. reflexivity.
  - exists (mkStat S_IFDIR 8 1 3). split; vm_compute; reflexivity.
  - reflexivity.
  - vm_compute. reflexivity.
  - vm_compute. reflexivity.
  - exists recs. split; [exact Hl | exact Hs].
Defined.

(** C4 (code bug).  A duplicate link gets a record of its own.  In
    files-enabled mode on g4_env the spec's accounting records d/f1 .. d/f9
    and d, and nothing for d/g4, a second link to the inode of d/f4.
    [dfs] prints the nine files while the registry grows past its 8 slots
    into a 16-byte block.  Whether d/g4 is printed then depends on bytes
    outside that block: when the lookup of inode 14 sees only the
    identifiers inside it, d/g4 is printed as well, a second record for
    inode 14. *)
Theorem duplicate_link_recorded :
  option_map (fun es => map fst (dedup_entries [] es)) (walk_spec g4_env 3 "d") =
    Some ["d/f1"; "d/f2"; "d/f3"; "d/f4"; "d/f5"; "d/f6"; "d/f7"; "d/f8"; "d/f9"; "d"]%string /\
  option_map (fun r => (seen (snd r), error (snd r), log (snd r)))
    (dfs_loop g4_env (fun q s => dfs g4_env 2 q true s) true "d" g4_prefix 4 initial_state) =
    Some (g4_registry, 0%Z, g4_records) /\
  block_contents g4_registry = [11; 12]%Z /\
  option_map (fun r => (error (snd r), log (snd r)))
    (dfs_loop g4_env (fun q s => dfs g4_env 2 q true s) true "d" ["g4"%string] 40
       (mkState (in_block g4_registry) 0 g4_records)) =
    Some (0%Z, g4_records ++ [Stdout 4 "d/g4"]).
Proof. refine (conj _ (conj _ (conj _ _))); vm_compute; reflexivity. Qed.

(** C5.  A traversal that fails writes, after what it had already written,
    records for paths strictly below its root and then a single
    diagnostic.  Nothing follows that diagnostic, and there is no record
    for the root itself.  At the top level, once a diagnostic has been
    written [du] returns -1, writes no record after the first diagnostic,
    and writes no record for the root. *)
Theorem error_halts_output (env : Env) :
  (forall fuel p b s t s', dfs env fuel p b s = Some (t, s') ->
     error s = 0%Z -> error s' <> 0%Z ->
     exists recs m, log s' = log s ++ records recs ++ [Stderr m] /\
       Forall (fun r => below p (snd r)) recs) /\
  (forall fuel p b r L, du env fuel p b = Some (r, L) -> (exists m, In (Stderr m) L) ->
     r = (-1)%Z /\
     (forall L1 m L2, L = L1 ++ Stderr m :: L2 -> forall u q, ~ In (Stdout u q) L2) /\
     (forall u, ~ In (Stdout u p) L)).
Proof. split; [exact (dfs_error_output env) | exact (du_failure env)]. Qed.

(** On broken_env the directory d/t cannot be opened: d/a and the subtree
    d/s are reported, then the diagnostic; d/b, listed after d/t, is never
    reached, d gets no record, and [du] returns -1. *)
Lemma error_halts_output_witness :
  (exists t s', dfs broken_env 4 "d" true initial_state = Some (t, s') /\
     exists recs m, log s' = log initial_state ++ records recs ++ [Stderr m] /\
       Forall (fun r => below "d" (snd r)) recs) /\
  (exists r L, du broken_env 4 "d" true = Some (r, L) /\
     r = (-1)%Z /\
     (forall L1 m L2, L = L1 ++ Stderr m :: L2 -> forall u q, ~ In (Stdout u q) L2) /\
     (forall u, ~ In (Stdout u "d") L)).
Proof.
  split.
  - do 2 eexists. split; [vm_compute; reflexivity|].
    eapply (proj1 (error_halts_output broken_env) 4 "d"%string true initial_state);
      [vm_compute; reflexivity | reflexivity | vm_compute; discriminate].
  - do 2 eexists. split; [vm_compute; reflexivity|].
    eapply (proj2 (error_halts_output broken_env) 4 "d"%string true);
      [vm_compute; reflexivity|].
    exists ("failed to open directory 'd/t'" ++ nl)%string. simpl.
    right. right. right. left. reflexivity.
Defined.

(** C6 (code bug).  Take a root directory path of 505 characters holding
    regular files abcde and abcdefghij.  The path of abcdefghij needs 516
    characters, so the spec's walk fails on it (PathTooLong).  [dfs] instead
    truncates it to the path of abcde and carries on: [du] succeeds and
    reports that file twice, counting it twice in the root's total. *)
Theorem truncated_child_path_reported :
  walk_spec long_env 3 long_root = None /\
  String.length (join_path long_root "abcdefghij") = 516%nat /\
  child_path long_root "abcdefghij" = long_child /\
  du long_env 3 long_root true =
    Some (0%Z, [Stdout 4 long_child; Stdout 4 long_child; Stdout 12 long_root]).
Proof. refine (conj _ (conj _ (conj _ _))); vm_compute; reflexivity. Qed.

(** C7 (code bug).  Growing the registry drops identifiers.  When the
    array is full ([size = len], at least one slot), [InsertInode] calls
    [realloc(data, size * 2)]: a block of [2 * size] bytes, room for
    [size / 4] identifiers of 8 bytes, fewer than the [len] already stored.
    The identifiers past that room are no longer in the registry's
    memory. *)
Theorem registry_growth_drops_identifiers env da ino da' :
  (0 < size da)%Z -> size da = len da -> InsertInode env da ino = Some da' ->
  alloc_bytes da' = (size da * 2)%Z /\
  (alloc_bytes da' / sizeof_ino_t < len da)%Z /\
  (Z.of_nat (List.length (block_contents da')) < len da)%Z.
Proof.
  intros Hs Hl. assert (E : (size da =? len da)%Z = true) by (apply Z.eqb_eq; exact Hl).
  unfold InsertInode. rewrite E. destruct (realloc_ok env (size da * 2)); [|discriminate].
  intros H. injection H as <-. unfold block_contents. simpl.
  assert (Hd : (size da * 2 / sizeof_ino_t < len da)%Z).
  { rewrite <- Hl. apply Z.div_lt_upper_bound; unfold sizeof_ino_t; lia. }
  assert (Hn : (0 <= size da * 2 / sizeof_ino_t)%Z)
    by (apply Z.div_pos; unfold sizeof_ino_t; lia).
  split; [reflexivity|]. split; [exact Hd|].
  pose proof (firstn_le_length (Z.to_nat (size da * 2 / sizeof_ino_t)) (data da ++ [ino])) as Hf.
  apply Nat2Z.inj_le in Hf. rewrite Z2Nat.id in Hf by exact Hn. lia.
Qed.

(** The ninth insertion into the registry [du] allocates: 16 bytes, room
    for two of the eight identifiers. *)
Lemma registry_growth_drops_identifiers_witness :
  alloc_bytes g4_registry = (8 * 2)%Z /\
  (alloc_bytes g4_registry / sizeof_ino_t < 8)%Z /\
  (Z.of_nat (List.length (block_contents g4_registry)) < 8)%Z.
Proof.
  exact (registry_growth_drops_identifiers g4_env
           (mkDA 8 8 [11; 12; 13; 14; 15; 16; 17; 18]%Z 64 false) 19 g4_registry
           ltac:(reflexivity) eq_refl ltac:(vm_compute; reflexivity)).
Defined.

(** C8 (code bug).  No diagnostic names both the failing path and the
    system error.  A failed stat of the path given to [dfs] and a directory
    that cannot be opened are reported by [fprintf] with the path only,
    without the text of [errno]; a failed stat of a child entry is reported
    with the [strerror] text only, without the path.  One run of [du] for
    each case. *)
Theorem diagnostics_lack_system_error :
  lstat symlink_env "nope" = inr ENOENT /\
  du symlink_env 3 "nope" true =
    Some ((-1)%Z, [Stderr ("failed to get stat for 'nope'" ++ nl)]) /\
  String.index 0 (strerror symlink_env ENOENT) ("failed to get stat for 'nope'" ++ nl) = None /\
  opendir broken_env "d/t" = inr EACCES /\
  du broken_env 4 "d" true =
    Some ((-1)%Z, [Stdout 8 "d/a"; Stdout 2 "d/s/x"; Stdout 6 "d/s";
                   Stderr ("failed to open directory 'd/t'" ++ nl)]) /\
  String.index 0 (strerror broken_env EACCES) ("failed to open directory 'd/t'" ++ nl) = None /\
  lstat vanished_env "d/gone" = inr ENOENT /\
  du vanished_env 4 "d" true =
    Some ((-1)%Z, [Stderr ("failed to retrieve stat on 'No such file or directory'" ++ nl)]) /\
  String.index 0 "d/gone" ("failed to retrieve stat on 'No such file or directory'" ++ nl) = None.
Proof.
  refine (conj _ (conj _ (conj _ (conj _ (conj _ (conj _ (conj _ (conj _ _))))))));
    vm_compute; reflexivity.
Qed.

(** C9.  For every file system, root path and starting state, the total,
    the registry and the error status that [dfs] computes are the same in
    files-enabled and files-disabled mode.  So is the value [du] returns. *)
Theorem mode_flag_irrelevant (env : Env) fuel p s :
  outcome (dfs env fuel p true s) = outcome (dfs env fuel p false s) /\
  option_map fst (du env fuel p true) = option_map fst (du env fuel p false).
Proof.
  split; [apply dfs_flag_irrelevant; reflexivity|].
  unfold du. destruct (InitDynamicArray env 8 sizeof_ino_t) as [[da|] ev]; [|reflexivity].
  pose proof (dfs_flag_irrelevant env fuel p true false (mkState da 0 ev) (mkState da 0 ev)
                eq_refl eq_refl) as H.
  destruct (dfs env fuel p true _) as [[t1 s1]|], (dfs env fuel p false _) as [[t2 s2]|];
    simpl in H; try discriminate; [|reflexivity].
  injection H as _ _ He. rewrite He. destruct (error s2 =? 0)%Z; reflexivity.
Qed.

(** C10 (code bug).  [InsertInode] grows a full registry by requesting
    [size * 2] bytes, not [size * 2 * sizeof(ino_t)].  Starting from the 8
    slots [du] allocates, the first eight insertions fit.  The ninth one
    reallocates to 16 bytes and stores the ninth inode at bytes 64 to 72, outside
    the block.  A traversal of a directory holding nine distinct
    multi-link files does exactly this. *)
Theorem registry_realloc_overflow :
  InitDynamicArray nine_links_env 8 sizeof_ino_t = (Some (mkDA 8 0 [] 64 false), []) /\
  insert_all nine_links_env (mkDA 8 0 [] 64 false) [11; 12; 13; 14; 15; 16; 17; 18]%Z =
    Some (mkDA 8 8 [11; 12; 13; 14; 15; 16; 17; 18]%Z 64 false) /\
  InsertInode nine_links_env (mkDA 8 8 [11; 12; 13; 14; 15; 16; 17; 18]%Z 64 false) 19 =
    Some (mkDA 16 9 [11; 12; 13; 14; 15; 16; 17; 18; 19]%Z 16 true) /\
  store_in_bounds (mkDA 16 8 [11; 12; 13; 14; 15; 16; 17; 18]%Z 16 false) = false /\
  option_map (fun r => (alloc_bytes (seen (snd r)), len (seen (snd r)), oob_write (seen (snd r))))
    (dfs nine_links_env 3 "d" true initial_state) = Some (16%Z, 9%Z, true).
Proof. refine (conj _ (conj _ (conj _ (conj _ _)))); vm_compute; reflexivity. Qed.

(** ** Further properties of the code *)

Lemma insert_all_none env l : 
  fold_left (fun o ino => match o with Some da => InsertInode env da ino | None => None end)
    l None = None.
Proof. induction l as [|x l IH]; [reflexivity|]. exact IH. Qed.

Lemma insert_all_cons env da x l :
  insert_all env da (x :: l) =
  match InsertInode env da x with Some d => insert_all env d l | None => None end.
Proof.
  unfold insert_all. simpl. destruct (InsertInode env da x); [reflexivity|].
  apply insert_all_none.
Qed.

Lemma InsertInode_oob env da x da' :
  InsertInode env da x = Some da' -> oob_write da = true -> oob_write da' = true.
Proof.
  unfold InsertInode. intros H Ho.
  destruct (size da =? len da)%Z; [destruct (realloc_ok env (size da * 2))|];
    try discriminate; injection H as <-; simpl; rewrite Ho; reflexivity.
Qed.

Lemma insert_all_oob env l : forall da da',
  oob_write da = true -> insert_all env da l = Some da' -> oob_write da' = true.
Proof.
  induction l as [|x l IH]; intros da da' Ho H.
  - injection H as <-. exact Ho.
  - rewrite insert_all_cons in H. destruct (InsertInode env da x) as [d|] eqn:Hi; [|discriminate].
    apply (IH d); [exact (InsertInode_oob env da x d Hi Ho) | exact H].
Qed.

Lemma InsertInode_room env da x :
  size da = 8%Z -> alloc_bytes da = 64%Z -> (0 <= len da < 8)%Z -> oob_write da = false ->
  InsertInode env da x = Some (mkDA 8 (len da + 1) (data da ++ [x]) 64 false).
Proof.
  intros Hs Ha Hl Ho. unfold InsertInode. rewrite Hs.
  replace (8 =? len da)%Z with false by (symmetry; apply Z.eqb_neq; lia).
  unfold store_in_bounds. simpl. rewrite Hs, Ha, Ho.
  replace ((len da + 1) * sizeof_ino_t <=? 64)%Z with true
    by (symmetry; apply Z.leb_le; unfold sizeof_ino_t; lia).
  reflexivity.
Qed.

Lemma InsertInode_full env da x d :
  size da = 8%Z -> len da = 8%Z -> InsertInode env da x = Some d -> oob_write d = true.
Proof.
  intros Hs Hl. unfold InsertInode. rewrite Hs, Hl. simpl.
  destruct (realloc_ok env 16); [|discriminate]. intros H. injection H as <-.
  simpl. unfold store_in_bounds. simpl. apply orb_true_r.
Qed.

Lemma insert_all_fresh env l : forall k da da',
  size da = 8%Z -> alloc_bytes da = 64%Z -> len da = Z.of_nat k -> (k <= 8)%nat ->
  oob_write da = false -> insert_all env da l = Some da' ->
  oob_write da' = (8 <? k + List.length l)%nat.
Proof.
  induction l as [|x l IH]; intros k da da' Hs Ha Hl Hk Ho H.
  - injection H as <-. rewrite Ho. symmetry. apply Nat.ltb_ge. simpl. lia.
  - rewrite insert_all_cons in H.
    destruct (Nat.eq_dec k 8) as [->|Hne].
    + destruct (InsertInode env da x) as [d|] eqn:Hi; [|discriminate].
      apply insert_all_oob in H; [|exact (InsertInode_full env da x d Hs Hl Hi)].
      rewrite H. symmetry. apply Nat.ltb_lt. simpl. lia.
    + rewrite (InsertInode_room env da x Hs Ha ltac:(lia) Ho) in H.
      refine (eq_trans (IH (S k) (mkDA 8 (len da + 1) (data da ++ [x]) 64 false) da' eq_refl eq_refl _ _ eq_refl H) _);
        [simpl; lia | lia | f_equal; simpl; lia].
Qed.

(** Registry bounds.  Take the registry [du] allocates (8 slots of an
    [ino_t], 64 bytes) and insert any list of inodes into it.
    The first eight insertions stay inside the allocated block.  From the
    ninth on, a store has gone past the end of the block: an out-of-bounds
    write happens exactly when more than eight inodes are inserted. *)
Theorem registry_out_of_bounds_after_eight env da0 ev l da :
  InitDynamicArray env 8 sizeof_ino_t = (Some da0, ev) ->
  insert_all env da0 l = Some da ->
  oob_write da = (8 <? List.length l)%nat.
Proof.
  intros Hi H. unfold InitDynamicArray in Hi.
  destruct (malloc_ok env sizeof_DynamicArray), (malloc_ok env (8 * sizeof_ino_t));
    simpl in Hi; try discriminate. injection Hi as <- _.
  exact (insert_all_fresh env l 0 (mkDA 8 0 [] 64 false) da eq_refl eq_refl eq_refl ltac:(lia) eq_refl H).
Qed.

Lemma registry_out_of_bounds_after_eight_witness :
  oob_write (match insert_all tree_env (mkDA 8 0 [] 64 false) [1; 2; 3; 4; 5; 6; 7; 8; 9]%Z with
             | Some d => d | None => mkDA 8 0 [] 64 false end) =
  (8 <? List.length [1; 2; 3; 4; 5; 6; 7; 8; 9]%Z)%nat.
Proof.
  apply (registry_out_of_bounds_after_eight tree_env (mkDA 8 0 [] 64 false) []);
    vm_compute; reflexivity.
Defined.

(** [InsertInode] and [SearchInode].  An insertion fails exactly when the
    array is full and the reallocation is refused; the array is then left
    unchanged.  A successful insertion that stores inside the block (no
    out-of-bounds store recorded afterwards, on an array of non-negative
    slot count) did not reallocate: the slot count and the block are
    unchanged.  It appends the inode, increments [len], keeps the stored
    list as long as [len], and afterwards [SearchInode] finds the new inode
    and everything it found before, and nothing else. *)
Theorem InsertInode_lookup env da ino :
  (InsertInode env da ino = None <->
   size da = len da /\ realloc_ok env (size da * 2) = false) /\
  (forall da', InsertInode env da ino = Some da' ->
   (0 <= size da)%Z -> oob_write da' = false ->
   size da' = size da /\ alloc_bytes da' = alloc_bytes da /\
   data da' = data da ++ [ino] /\ len da' = (len da + 1)%Z /\
   (forall x, SearchInode da' x = (Z.eqb x ino || SearchInode da x)) /\
   (Z.of_nat (List.length (data da)) = len da ->
    Z.of_nat (List.length (data da')) = len da')).
Proof.
  split.
  - unfold InsertInode. destruct (size da =? len da)%Z eqn:E.
    + apply Z.eqb_eq in E. destruct (realloc_ok env (size da * 2)).
      * split; [discriminate | intros [_ H]; discriminate].
      * split; [intros _; split; [exact E | reflexivity] | reflexivity].
    + apply Z.eqb_neq in E. split; [discriminate | intros [H _]; contradiction].
  - intros da' H Hs Ho. assert (Hd := InsertInode_data env da ino da' H).
    destruct (proj2 (InsertInode_no_growth env da ino da' Hs H) Ho) as [_ [Hsz Ha]].
    assert (Hl : len da' = (len da + 1)%Z).
    { unfold InsertInode in H. destruct (size da =? len da)%Z;
        [destruct (realloc_ok env (size da * 2))|]; try discriminate;
        injection H as <-; reflexivity. }
    split; [exact Hsz|]. split; [exact Ha|].
    split; [exact Hd|]. split; [exact Hl|]. split.
    + intros x. unfold SearchInode. rewrite Hd, existsb_app. simpl.
      rewrite orb_false_r, orb_comm. reflexivity.
    + intros Hlen. rewrite Hd, Hl, length_app, Nat2Z.inj_add, Hlen. reflexivity.
Qed.

Lemma writes_ok_refl env s : writes_ok env s s.
Proof. exists []. split; [rewrite app_nil_r; reflexivity | constructor]. Qed.

Lemma writes_ok_trans env s1 s2 s3 :
  writes_ok env s1 s2 -> writes_ok env s2 s3 -> writes_ok env s1 s3.
Proof.
  intros [a1 [H1 F1]] [a2 [H2 F2]]. exists (a1 ++ a2). split.
  - rewrite H2, H1, app_assoc. reflexivity.
  - apply Forall_app. split; assumption.
Qed.

Lemma writes_ok_log env s s' : log s' = log s -> writes_ok env s s'.
Proof. intros H. exists []. split; [rewrite H, app_nil_r; reflexivity | constructor]. Qed.

Lemma writes_ok_print env (b : bool) u q s :
  writes_ok env s (if b then PrintDiskUsage u q s else s).
Proof.
  destruct b; [|apply writes_ok_refl].
  exists [Stdout u q]. split; [reflexivity | repeat constructor].
Qed.

Lemma writes_ok_diag env e m s :
  dfs_diagnostic env m -> writes_ok env s (set_error e (emit (Stderr m) s)).
Proof. intros H. exists [Stderr m]. split; [reflexivity | constructor; [exact H | constructor]]. Qed.

Lemma dfs_loop_writes env rec b p :
  (forall q s t s', rec q s = Some (t, s') -> writes_ok env s s') ->
  forall names total s t s', dfs_loop env rec b p names total s = Some (t, s') ->
  writes_ok env s s'.
Proof.
  intros Hrec names. induction names as [|n rest IH]; intros total s t s' Hrun.
  - injection Hrun as _ <-. apply writes_ok_refl.
  - destruct (is_dot_entry n) eqn:Hd.
    { rewrite dfs_loop_dot in Hrun by exact Hd. eapply IH; exact Hrun. }
    rewrite dfs_loop_entry in Hrun by exact Hd. cbv zeta in Hrun.
    destruct (lstat env _) as [sb|e].
    2:{ injection Hrun as _ <-. apply writes_ok_diag. right. right. left.
        exists e. reflexivity. }
    assert (Hnext : forall t0 s0, writes_ok env s s0 ->
      dfs_loop env rec b p rest t0
        (if b && negb (S_ISDIR (st_mode sb))
         then PrintDiskUsage (kb_of sb) (snd (snprintf_path p n)) s0 else s0) = Some (t, s') ->
      writes_ok env s s').
    { intros t0 s0 H0 Hl. eapply writes_ok_trans; [exact H0|].
      eapply writes_ok_trans; [apply writes_ok_print | eapply IH; exact Hl]. }
    destruct (S_ISDIR (st_mode sb)).
    + destruct (rec _ s) as [[u s1]|] eqn:Hr; [|discriminate].
      apply Hrec in Hr. destruct (error s1 =? 0)%Z.
      * eapply Hnext; [exact Hr | exact Hrun].
      * injection Hrun as _ <-. exact Hr.
    + destruct (S_ISREG (st_mode sb)); [|eapply Hnext; [apply writes_ok_refl | exact Hrun]].
      destruct (1 <? st_nlink sb)%Z; [|eapply Hnext; [apply writes_ok_refl | exact Hrun]].
      destruct (SearchInode (seen s) (st_ino sb)); [eapply IH; exact Hrun|].
      destruct (InsertInode env (seen s) (st_ino sb)) as [da|].
      * exact (Hnext _ (set_seen da s) (writes_ok_log env s _ eq_refl) Hrun).
      * injection Hrun as _ <-. apply writes_ok_diag. right. right. right.
        exists (st_ino sb). reflexivity.
Qed.

Lemma dfs_writes env fuel : forall p b s t s',
  dfs env fuel p b s = Some (t, s') -> writes_ok env s s'.
Proof.
  induction fuel as [|fuel IH]; intros p b s t s' Hrun; [discriminate|].
  simpl in Hrun. destruct (lstat env p) as [sb|e].
  2:{ injection Hrun as _ <-. apply writes_ok_diag. left. exists p. reflexivity. }
  destruct (negb (S_ISDIR (st_mode sb))).
  { injection Hrun as _ <-. exact (writes_ok_print env true _ _ s). }
  destruct (opendir env p) as [names|e].
  2:{ injection Hrun as _ <-. apply writes_ok_diag. right. left. exists p. reflexivity. }
  destruct (dfs_loop env _ b p names _ s) as [[t1 s1]|] eqn:Hl; [|discriminate].
  apply dfs_loop_writes in Hl; [|intros q s0 t0 s0' H; eapply IH; exact H].
  destruct (error s1 =? 0)%Z; injection Hrun as _ <-; [|exact Hl].
  eapply writes_ok_trans; [exact Hl | exact (writes_ok_print env true _ _ s1)].
Qed.

Lemma concat_not_dfs_diagnostic env :
  ~ dfs_diagnostic env ("failed to concatenate root path to filename" ++ ": "
                        ++ strerror env EOVERFLOW ++ nl).
Proof.
  intros [[p H]|[[p H]|[[e H]|[ino H]]]]; simpl in H; discriminate.
Qed.

(** What [dfs] writes.  A call of [dfs] only appends to the output, and
    every line it writes to standard error is one of four diagnostics: a
    failed stat of the path it was given, a directory that cannot be
    opened, a failed stat of a child entry (with the system error text), or
    a failed registry insertion.  The path-concatenation diagnostic is
    never written, since [snprintf] never returns a negative value here. *)
Theorem dfs_diagnostics env fuel p b s t s' :
  dfs env fuel p b s = Some (t, s') ->
  exists added, log s' = log s ++ added /\
    (forall m, In (Stderr m) added -> dfs_diagnostic env m) /\
    ~ In (perror env "failed to concatenate root path to filename" EOVERFLOW) added.
Proof.
  intros Hrun. destruct (dfs_writes env fuel p b s t s' Hrun) as [added [Hl Hf]].
  rewrite Forall_forall in Hf. exists added. split; [exact Hl|]. split.
  - intros m Hin. exact (Hf _ Hin).
  - intros Hin. apply (concat_not_dfs_diagnostic env). exact (Hf _ Hin).
Qed.

(** On broken_env: the records of d/a, d/s/x and d/s, then the diagnostic
    for the directory d/t that cannot be opened. *)
Lemma dfs_diagnostics_witness :
  exists t s', dfs broken_env 4 "d" true initial_state = Some (t, s') /\
  exists added, log s' = log initial_state ++ added /\
    (forall m, In (Stderr m) added -> dfs_diagnostic broken_env m) /\
    ~ In (perror broken_env "failed to concatenate root path to filename" EOVERFLOW) added.
Proof.
  do 2 eexists. split; [vm_compute; reflexivity|].
  eapply (dfs_diagnostics broken_env 4 "d"%string true initial_state).
  vm_compute. reflexivity.
Defined.

(** A directory path that fills the buffer.  For a directory path of
    exactly 511 characters, the path [snprintf] builds for an entry other
    than "." and ".." is cut back to the directory's own path.  So, for
    that entry, [dfs] stats the directory itself and calls itself on the
    same path with the same state: the recursion re-enters the directory
    it is in. *)
Theorem full_path_reentered env rec b p n rest total s sb :
  String.length p = (kPathMax - 1)%nat -> is_dot_entry n = false ->
  lstat env p = inl sb -> S_ISDIR (st_mode sb) = true ->
  child_path p n = p /\
  dfs_loop env rec b p (n :: rest) total s =
  match rec p s with
  | None => None
  | Some (u, s') =>
    if (error s' =? 0)%Z then dfs_loop env rec b p rest (total + u)%Z s'
    else Some ((total + u)%Z, s')
  end.
Proof.
  intros Hlen Hd Hst Hdir. split; [exact (child_path_fixed p n Hlen)|].
  rewrite dfs_loop_entry by exact Hd. cbv zeta.
  change (snd (snprintf_path p n)) with (child_path p n).
  rewrite child_path_fixed by exact Hlen. rewrite Hst, Hdir.
  destruct (rec p s) as [[u s']|]; [|reflexivity].
  destruct (error s' =? 0)%Z; [|reflexivity]. destruct b; reflexivity.
Qed.

(** The entry x of the 511-character directory of full_path_env. *)
Lemma full_path_reentered_witness :
  child_path full_path_dir "x" = full_path_dir /\
  dfs_loop full_path_env (fun q s => dfs full_path_env 3 q true s) true full_path_dir
    ["x"%string] 4 initial_state =
  match dfs full_path_env 3 full_path_dir true initial_state with
  | None => None
  | Some (u, s') =>
    if (error s' =? 0)%Z
    then dfs_loop full_path_env (fun q s => dfs full_path_env 3 q true s) true full_path_dir
           [] (4 + u)%Z s'
    else Some ((4 + u)%Z, s')
  end.
Proof.
  exact (full_path_reentered full_path_env (fun q s => dfs full_path_env 3 q true s) true
           full_path_dir "x" [] 4 initial_state (mkStat S_IFDIR 8 1 2)
           ltac:(vm_compute; reflexivity) eq_refl ltac:(vm_compute; reflexivity) eq_refl).
Defined.

(** The return value of [du] and what it writes.  Either [du] returns 0 and
    writes only usage lines, the last one for the root path, the ones
    before it for paths of at most 511 characters that differ from the
    root; or it returns -1 and the last line it writes is a diagnostic. *)
Theorem du_status_output env fuel p b r L :
  du env fuel p b = Some (r, L) ->
  (r = 0%Z /\ exists recs t, L = records recs ++ [Stdout t p] /\
     Forall (fun q => String.length (snd q) <= kPathMax - 1 /\ snd q <> p)%nat recs) \/
  (r = (-1)%Z /\ exists L1 m, L = L1 ++ [Stderr m]).
Proof.
  unfold du. destruct (InitDynamicArray env 8 sizeof_ino_t) as [[da|] ev] eqn:Hi.
  - apply InitDynamicArray_some in Hi. destruct Hi as [-> _].
    destruct (dfs env fuel p b (mkState da 0 [])) as [[t s]|] eqn:Hd; [|discriminate].
    destruct (dfs_emitted env fuel p b _ t s Hd eq_refl) as [recs [Hf Hcase]].
    assert (Hf' : Forall (fun q => String.length (snd q) <= kPathMax - 1 /\ snd q <> p)%nat recs).
    { eapply Forall_impl; [|exact Hf]. intros q Hq. split; [|exact (below_neq _ _ Hq)].
      unfold below in Hq. lia. }
    destruct Hcase as [[He Hl] | [He [m Hl]]].
    + rewrite He. simpl. intros H. injection H as <- <-. left. split; [reflexivity|].
      exists recs, t. split; [exact Hl | exact Hf'].
    + apply Z.eqb_neq in He. rewrite He. simpl. intros H. injection H as <- <-. right.
      split; [reflexivity|]. exists (records recs), m. rewrite Hl. reflexivity.
  - intros H. injection H as <- <-. right. split; [reflexivity|].
    exists ev. eexists. reflexivity.
Qed.

Lemma du_status_output_witness :
  exists r L, du tree_env 10 "d" true = Some (r, L) /\
  ((r = 0%Z /\ exists recs t, L = records recs ++ [Stdout t "d"%string] /\
     Forall (fun q => String.length (snd q) <= kPathMax - 1 /\ snd q <> "d"%string)%nat recs) \/
   (r = (-1)%Z /\ exists L1 m, L = L1 ++ [Stderr m])).
Proof.
  do 2 eexists. split; [vm_compute; reflexivity|].
  apply (du_status_output tree_env 10 "d" true). vm_compute. reflexivity.
Defined.

(** [du] when the registry cannot be allocated.  If the allocation of the
    array struct fails, [du] returns -1 after two diagnostics: the one of
    [InitDynamicArray] and its own, both with the text of ENOMEM.  If the
    struct is allocated but the 64-byte array is not, the first diagnostic
    is the one for the array allocation instead.  No traversal happens. *)
Theorem du_alloc_failure env fuel p b :
  (malloc_ok env sizeof_DynamicArray = false ->
   du env fuel p b = Some ((-1)%Z,
     [perror env "malloc failed on struct allocation" ENOMEM;
      perror env "failed to initialize dynamic array" ENOMEM])) /\
  (malloc_ok env sizeof_DynamicArray = true -> malloc_ok env (8 * sizeof_ino_t) = false ->
   du env fuel p b = Some ((-1)%Z,
     [perror env "malloc failed on array allocation" ENOMEM;
      perror env "failed to initialize dynamic array" ENOMEM])).
Proof.
  unfold du, InitDynamicArray. split.
  - intros H. rewrite H. reflexivity.
  - intros H1 H2. rewrite H1, H2. reflexivity.
Qed.

Lemma du_alloc_failure_witness :
  du no_memory_env 10 "d" true = Some ((-1)%Z,
     [Stderr ("malloc failed on struct allocation: Cannot allocate memory" ++ nl);
      Stderr ("failed to initialize dynamic array: Cannot allocate memory" ++ nl)]).
Proof.
  refine (eq_trans (proj1 (du_alloc_failure no_memory_env 10 "d" true) eq_refl) _).
  vm_compute. reflexivity.
Defined.

Lemma dfs_loop_nodots env rec1 rec2 b p names :
  (forall q s, rec1 q s = rec2 q s) -> forall total s,
  dfs_loop env rec1 b p (filter (fun n => negb (is_dot_entry n)) names) total s =
  dfs_loop env rec2 b p names total s.
Proof.
  intros Hrec. induction names as [|n rest IH]; intros total s; [reflexivity|].
  simpl filter. destruct (is_dot_entry n) eqn:Hd.
  { rewrite dfs_loop_dot by exact Hd. apply IH. }
  simpl negb. cbv iota. rewrite !dfs_loop_entry by exact Hd. cbv zeta.
  destruct (lstat env _) as [sb|e]; [|reflexivity].
  destruct (S_ISDIR (st_mode sb)).
  - rewrite Hrec. destruct (rec2 _ s) as [[u s']|]; [|reflexivity].
    destruct (error s' =? 0)%Z; [apply IH | reflexivity].
  - destruct (S_ISREG (st_mode sb)); [|apply IH].
    destruct (1 <? st_nlink sb)%Z; [|apply IH].
    destruct (SearchInode (seen s) (st_ino sb)); [apply IH|].
    destruct (InsertInode env (seen s) (st_ino sb)); [apply IH | reflexivity].
Qed.

(** "." and ".." are skipped.  Removing the "." and ".." entries from every
    directory listing changes nothing in what [dfs] computes or writes. *)
Theorem dfs_ignores_dot_entries env fuel : forall p b s,
  dfs (strip_dots env) fuel p b s = dfs env fuel p b s.
Proof.
  induction fuel as [|fuel IH]; intros p b s; [reflexivity|].
  destruct env as [st od mo ro se]. simpl. destruct (st p) as [sb|e]; [|reflexivity].
  destruct (negb (S_ISDIR (st_mode sb))); [reflexivity|].
  destruct (od p) as [names|e]; [|reflexivity].
  change (dfs_loop (strip_dots (mkEnv st od mo ro se)))
    with (dfs_loop (mkEnv st od mo ro se)).
  rewrite (dfs_loop_nodots (mkEnv st od mo ro se) _ (fun q s => dfs (mkEnv st od mo ro se) fuel q b s)
             b p names (fun q s => IH q b s)).
  reflexivity.
Qed.

Lemma parse_opts_all opts : forall inc out,
  Forall (fun o => fst o = "a"%char) opts ->
  parse_opts opts inc out =
  (Some (if opts then inc else true), out ++ map Stderr (List.concat (map snd opts))).
Proof.
  induction opts as [|[c msgs] rest IH]; intros inc out Hf.
  - simpl. rewrite app_nil_r. reflexivity.
  - inversion Hf as [|? ? Hc Hr]; subst. simpl in Hc. subst c. simpl.
    rewrite (IH true _ Hr), map_app, app_assoc. destruct rest; reflexivity.
Qed.

Lemma parse_opts_bad opts1 c msgs opts2 : forall inc out,
  Forall (fun o => fst o = "a"%char) opts1 -> c <> "a"%char ->
  parse_opts (opts1 ++ (c, msgs) :: opts2) inc out =
  (None, out ++ map Stderr (List.concat (map snd opts1) ++ msgs)).
Proof.
  induction opts1 as [|[c1 m1] rest IH]; intros inc out Hf Hc.
  - simpl. replace (Ascii.eqb c "a"%char) with false
      by (symmetry; apply Ascii.eqb_neq; exact Hc). reflexivity.
  - inversion Hf as [|? ? Hc1 Hr]; subst. simpl in Hc1. subst c1. simpl.
    rewrite (IH true _ Hr Hc), !map_app, !app_assoc. reflexivity.
Qed.

(** [main] rejects bad arguments.  With more than [kMaxArgs] (3) arguments,
    [main] prints the usage to standard error and exits with EXIT_FAILURE
    before calling getopt.  With an option other than -a, it writes what
    getopt wrote up to that option, then the usage, and exits with
    EXIT_FAILURE.  With more than one operand after the options, it does
    the same after all of getopt's messages.  In none of these cases does
    [du] run. *)
Theorem main_rejects_arguments env g fuel argv :
  let argc := Z.of_nat (List.length argv) in
  let cmd := nth 0 argv EmptyString in
  ((kMaxArgs < argc)%Z -> main env g fuel argv = Some (EXIT_FAILURE, PrintUsage cmd)) /\
  ((argc <= kMaxArgs)%Z -> forall opts1 c msgs opts2 optind,
     getopt_run g argv = (opts1 ++ (c, msgs) :: opts2, optind) ->
     Forall (fun o => fst o = "a"%char) opts1 -> c <> "a"%char ->
     main env g fuel argv =
     Some (EXIT_FAILURE, map Stderr (List.concat (map snd opts1) ++ msgs) ++ PrintUsage cmd)) /\
  ((argc <= kMaxArgs)%Z -> forall opts optind,
     getopt_run g argv = (opts, optind) ->
     Forall (fun o => fst o = "a"%char) opts -> (1 < argc - Z.of_nat optind)%Z ->
     main env g fuel argv =
     Some (EXIT_FAILURE, map Stderr (List.concat (map snd opts)) ++ PrintUsage cmd)).
Proof.
  intros argc cmd. unfold main. fold argc cmd. split; [|split].
  - intros H. apply Z.ltb_lt in H. rewrite H. reflexivity.
  - intros H opts1 c msgs opts2 optind Hg Hf Hc. apply Z.ltb_ge in H. rewrite H, Hg.
    rewrite (parse_opts_bad opts1 c msgs opts2 false [] Hf Hc). reflexivity.
  - intros H opts optind Hg Hf Hn. apply Z.ltb_ge in H. rewrite H, Hg.
    rewrite (parse_opts_all opts false [] Hf). apply Z.ltb_lt in Hn. rewrite Hn.
    reflexivity.
Qed.

Lemma main_rejects_arguments_witness :
  main tree_env (getopt_none 1) 10 ["du"; "d"; "e"; "f"]%string =
    Some (EXIT_FAILURE, PrintUsage "du") /\
  main tree_env getopt_bad
       10 ["du"; "-x"]%string =
    Some (EXIT_FAILURE, map Stderr (List.concat (map snd (@nil (ascii * list string)))
                                   ++ ["du: invalid option -- 'x'" ++ nl]%string) ++ PrintUsage "du") /\
  main tree_env (getopt_none 1) 10 ["du"; "d"; "e"]%string =
    Some (EXIT_FAILURE, map Stderr (List.concat (map snd (@nil (ascii * list string)))) ++ PrintUsage "du").
Proof.
  split; [|split].
  - refine (proj1 (main_rejects_arguments tree_env (getopt_none 1) 10
                     ["du"; "d"; "e"; "f"]%string) _).
    vm_compute. reflexivity.
  - refine (proj1 (proj2 (main_rejects_arguments tree_env
                 getopt_bad
                 10 ["du"; "-x"]%string))
              _ [] _ _ [] 2 eq_refl (Forall_nil _) _); [vm_compute; discriminate | discriminate].
  - refine (proj2 (proj2 (main_rejects_arguments tree_env (getopt_none 1) 10
                     ["du"; "d"; "e"]%string)) _ [] 1 eq_refl (Forall_nil _) _);
      vm_compute; [discriminate | reflexivity].
Defined.

(** [main] on accepted arguments.  With at most 3 arguments, only -a
    options and at most one operand, [main] runs [du] on the operand, or on
    "." when there is none, with files included exactly when -a was given.
    It exits with EXIT_FAILURE when [du] returns a negative value and with
    EXIT_SUCCESS otherwise, after writing getopt's messages and then what
    [du] writes. *)
Theorem main_runs_du env g fuel argv opts optind :
  (Z.of_nat (List.length argv) <= kMaxArgs)%Z ->
  getopt_run g argv = (opts, optind) ->
  Forall (fun o => fst o = "a"%char) opts ->
  (Z.of_nat (List.length argv) - Z.of_nat optind <= 1)%Z ->
  main env g fuel argv =
  option_map (fun r => (if (fst r <? 0)%Z then EXIT_FAILURE else EXIT_SUCCESS,
                        map Stderr (List.concat (map snd opts)) ++ snd r))
    (du env fuel (main_operand g argv) (0 <? List.length opts)%nat).
Proof.
  intros H Hg Hf Hn. unfold main, main_operand. apply Z.ltb_ge in H. rewrite H, Hg.
  rewrite (parse_opts_all opts false [] Hf). apply Z.ltb_ge in Hn. rewrite Hn.
  replace (if opts then false else true) with (0 <? List.length opts)%nat
    by (destruct opts; reflexivity).
  simpl snd. destruct (du env fuel _ _) as [[r L]|]; reflexivity.
Qed.

(** [du d -a]: getopt moves d behind -a, and [du] runs on d with files
    included. *)
Lemma main_runs_du_witness :
  main_operand getopt_late ["du"; "d"; "-a"]%string = "d"%string /\
  main tree_env getopt_late 10 ["du"; "d"; "-a"]%string =
  option_map (fun r => (if (fst r <? 0)%Z then EXIT_FAILURE else EXIT_SUCCESS,
                        map Stderr (List.concat (map snd [("a"%char, @nil string)])) ++ snd r))
    (du tree_env 10 (main_operand getopt_late ["du"; "d"; "-a"]%string)
        (0 <? List.length [("a"%char, @nil string)])%nat).
Proof.
  split; [reflexivity|].
  apply (main_runs_du tree_env getopt_late 10 ["du"; "d"; "-a"]%string _ 2%nat).
  - vm_compute. discriminate.
  - reflexivity.
  - repeat constructor.
  - vm_compute. discriminate.
Defined.

Lemma dfs_loop_total_nonneg env rec b p :
  (forall q st, lstat env q = inl st -> (0 <= st_blocks st)%Z) ->
  (forall q s u s', rec q s = Some (u, s') -> (0 <= u)%Z) ->
  forall names total s t s', (0 <= total)%Z ->
  dfs_loop env rec b p names total s = Some (t, s') -> (0 <= t)%Z.
Proof.
  intros Hb Hrec names. induction names as [|n rest IH]; intros total s t s' Ht Hrun.
  - injection Hrun as <- _. exact Ht.
  - destruct (is_dot_entry n) eqn:Hd.
    { rewrite dfs_loop_dot in Hrun by exact Hd. eapply IH; [exact Ht | exact Hrun]. }
    rewrite dfs_loop_entry in Hrun by exact Hd. cbv zeta in Hrun.
    destruct (lstat env _) as [sb|e] eqn:Hst; [|injection Hrun as <- _; exact Ht].
    assert (Hk : (0 <= kb_of sb)%Z).
    { unfold kb_of. apply Z.quot_pos; [exact (Hb _ _ Hst) | lia]. }
    destruct (S_ISDIR (st_mode sb)).
    + destruct (rec _ s) as [[u s1]|] eqn:Hr; [|discriminate].
      apply Hrec in Hr. destruct (error s1 =? 0)%Z.
      * eapply IH; [|exact Hrun]. lia.
      * injection Hrun as <- _. lia.
    + destruct (S_ISREG (st_mode sb)); [|eapply IH; [exact Ht | exact Hrun]].
      destruct (1 <? st_nlink sb)%Z; [|eapply IH; [|exact Hrun]; lia].
      destruct (SearchInode (seen s) (st_ino sb)); [eapply IH; [exact Ht | exact Hrun]|].
      destruct (InsertInode env (seen s) (st_ino sb)).
      * eapply IH; [|exact Hrun]. lia.
      * injection Hrun as <- _. exact Ht.
Qed.

(** On a file system where every [st_blocks] is non-negative, the total
    [dfs] returns is non-negative. *)
Theorem dfs_total_nonneg env fuel : forall p b s t s',
  (forall q st, lstat env q = inl st -> (0 <= st_blocks st)%Z) ->
  dfs env fuel p b s = Some (t, s') -> (0 <= t)%Z.
Proof.
  induction fuel as [|fuel IH]; intros p b s t s' Hb Hrun; [discriminate|].
  simpl in Hrun. destruct (lstat env p) as [sb|e] eqn:Hst; [|injection Hrun as <- _; lia].
  assert (Hk : (0 <= kb_of sb)%Z).
  { unfold kb_of. apply Z.quot_pos; [exact (Hb _ _ Hst) | lia]. }
  destruct (negb (S_ISDIR (st_mode sb))); [injection Hrun as <- _; exact Hk|].
  destruct (opendir env p) as [names|e]; [|injection Hrun as <- _; lia].
  destruct (dfs_loop env _ b p names _ s) as [[t1 s1]|] eqn:Hl; [|discriminate].
  apply (dfs_loop_total_nonneg env _ b p Hb (fun q s0 u s0' H => IH q b s0 u s0' Hb H))
    in Hl; [|exact Hk].
  destruct (error s1 =? 0)%Z; injection Hrun as <- _; exact Hl.
Qed.

Lemma sample_fs_lstat files dirs q st :
  lstat (sample_fs files dirs) q = inl st -> In st (map snd files).
Proof.
  unfold sample_fs, lookup_path. simpl.
  destruct (find _ files) as [[k v]|] eqn:E; intros H; [|discriminate].
  injection H as <-. apply find_some in E. destruct E as [E _].
  apply in_map_iff. exists (k, v). split; [reflexivity | exact E].
Qed.

Lemma dfs_total_nonneg_witness : (0 <= fst (tree_run true))%Z.
Proof.
  apply (dfs_total_nonneg tree_env 10 "d" true initial_state (fst (tree_run true))
           (snd (tree_run true))).
  - intros q st H. apply sample_fs_lstat in H.
    assert (Hall : forallb (fun st => 0 <=? st_blocks st)%Z
                     (map snd [("d", mkStat S_IFDIR 8 1 3); ("d/a", mkStat S_IFREG 16 5 2);
                               ("d/b", mkStat S_IFREG 16 5 2); ("d/l", mkStat S_IFLNK 8 7 1);
                               ("d/s", mkStat S_IFDIR 8 9 2); ("d/s/x", mkStat S_IFREG 4 10 1)]%string) = true)
      by (vm_compute; reflexivity).
    rewrite forallb_forall in Hall. apply Z.leb_le. exact (Hall st H).
  - vm_compute. reflexivity.
Defined.

Lemma parse_opts_some opts : forall inc out i out',
  parse_opts opts inc out = (Some i, out') ->
  out' = out ++ map Stderr (List.concat (map snd opts)).
Proof.
  induction opts as [|[c msgs] rest IH]; intros inc out i out' H.
  - injection H as _ <-. rewrite app_nil_r. reflexivity.
  - simpl in H. destruct (Ascii.eqb c "a"%char); [|discriminate].
    rewrite (IH _ _ _ _ H). simpl. rewrite map_app, app_assoc. reflexivity.
Qed.

(** The exit status of [main] and its output.  On EXIT_SUCCESS the output
    is the lines getopt wrote to standard error while returning its
    options, then usage lines for paths of at most 511 characters other
    than the path [main] gave [du], and last the usage line of that path.
    On EXIT_FAILURE the last line written is on standard error (a
    diagnostic or the usage text). *)
Theorem main_status_output env g fuel argv st out :
  main env g fuel argv = Some (st, out) ->
  (st = EXIT_SUCCESS /\ exists recs t,
     out = map Stderr (List.concat (map snd (fst (getopt_run g argv)))) ++
           records recs ++ [Stdout t (main_operand g argv)] /\
     Forall (fun q => String.length (snd q) <= kPathMax - 1 /\
                      snd q <> main_operand g argv)%nat recs) \/
  (st = EXIT_FAILURE /\ exists L m, out = L ++ [Stderr m]).
Proof.
  assert (Hu : forall pre cmd, exists L m, pre ++ PrintUsage cmd = L ++ [Stderr m]).
  { intros pre cmd. exists (pre ++ firstn 2 (PrintUsage cmd)). eexists.
    unfold PrintUsage. simpl. rewrite <- app_assoc. reflexivity. }
  unfold main, main_operand. destruct (kMaxArgs <? _)%Z.
  { intros H. injection H as <- <-. right. split; [reflexivity|]. exact (Hu [] _). }
  destruct (getopt_run g argv) as [opts optind]. simpl fst; simpl snd.
  destruct (parse_opts opts false []) as [[inc|] pre] eqn:Hp.
  2:{ intros H. injection H as <- <-. right. split; [reflexivity | apply Hu]. }
  rewrite (parse_opts_some _ _ _ _ _ Hp). simpl app.
  destruct (1 <? _)%Z.
  { intros H. injection H as <- <-. right. split; [reflexivity | apply Hu]. }
  destruct (du env fuel _ inc) as [[r L]|] eqn:Hd; [|discriminate].
  intros H. injection H as <- <-.
  destruct (du_status_output env fuel _ inc r L Hd) as [[-> [recs [t [HL Hf]]]] | [-> [L1 [m HL]]]].
  - left. split; [reflexivity|]. exists recs, t. rewrite HL. split; [reflexivity | exact Hf].
  - right. split; [reflexivity|]. eexists. exists m.
    rewrite HL, app_assoc. reflexivity.
Qed.

(** [du -a d] on tree_env. *)
Lemma main_status_output_witness :
  exists st out, main tree_env getopt_a 10 ["du"; "-a"; "d"]%string = Some (st, out) /\
  ((st = EXIT_SUCCESS /\ exists recs t,
     out = map Stderr (List.concat (map snd (fst (getopt_run getopt_a ["du"; "-a"; "d"]%string)))) ++
           records recs ++ [Stdout t (main_operand getopt_a ["du"; "-a"; "d"]%string)] /\
     Forall (fun q => String.length (snd q) <= kPathMax - 1 /\
                      snd q <> main_operand getopt_a ["du"; "-a"; "d"]%string)%nat recs) \/
   (st = EXIT_FAILURE /\ exists L m, out = L ++ [Stderr m])).
Proof.
  do 2 eexists. split; [vm_compute; reflexivity|].
  apply (main_status_output tree_env getopt_a 10 ["du"; "-a"; "d"]%string).
  vm_compute. reflexivity.
Defined.

(** First-encounter accounting of hard links, in runs where every store
    into the registry stays inside its block.  Take an error-free traversal
    of a directory whose walk succeeds, started from a duplicate-free
    registry R with a non-negative slot count, and ending with no
    out-of-bounds store recorded.  Then the registry was never reallocated:
    its slot count and block are unchanged, so every lookup read what was
    stored.  The kept entries are [dedup_entries R es], the post-order
    listing without every multi-link regular file whose inode is in R or
    was met earlier.  In files-enabled mode the records are exactly the
    kept paths, and the total is the usage of the kept entries, so a later
    link adds nothing.  The registry becomes R extended with the inodes of
    the kept multi-link files, each once, and holds every multi-link inode
    of the tree. *)
Theorem hardlink_first_encounter (env : Env) b fuel p es s t s' :
  walk_spec env fuel p = Some es ->
  (exists st, lstat env p = inl st /\ S_ISDIR (st_mode st) = true) ->
  error s = 0%Z -> NoDup (data (seen s)) -> (0 <= size (seen s))%Z ->
  dfs env fuel p b s = Some (t, s') -> error s' = 0%Z -> oob_write (seen s') = false ->
  size (seen s') = size (seen s) /\ alloc_bytes (seen s') = alloc_bytes (seen s) /\
  exists recs, log s' = log s ++ records recs /\
    (b = true -> map snd recs = map fst (dedup_entries (data (seen s)) es)) /\
    t = usage_sum (dedup_entries (data (seen s)) es) /\
    data (seen s') = data (seen s) ++
      map st_ino (filter multi_link (map snd (dedup_entries (data (seen s)) es))) /\
    NoDup (data (seen s')) /\
    (forall q st, In (q, st) es -> multi_link st = true -> In (st_ino st) (data (seen s'))).
Proof.
  intros Hw Hd He0 HN Hs Hrun He' Ho.
  destruct (proj2 (dfs_keeps_block env fuel p b s t s' Hrun) Ho Hs) as [_ [Hsz Ha]].
  split; [exact Hsz|]. split; [exact Ha|].
  destruct (dfs_walk env b fuel p es s Hw Hd He0) as [t1 [s1 [Hr1 [Hok _]]]].
  rewrite Hrun in Hr1. injection Hr1 as <- <-.
  destruct (Hok He') as [recs [Hl Hac]]. rewrite account_dedup in Hac.
  injection Hac as Hp Hreg Ht.
  exists recs. split; [exact Hl|]. split; [intros ->; symmetry; exact Hp|].
  split; [symmetry; exact Ht|]. split; [symmetry; exact Hreg|].
  split; [exact (proj2 (dfs_registry env fuel p b s t s' Hrun) HN)|].
  intros q st Hin Hm. rewrite <- Hreg. eapply dedup_registers; eassumption.
Qed.

(** On tree_env, where d/a and d/b share an inode and the registry never
    grows. *)
Lemma hardlink_first_encounter_witness :
  exists recs, log (snd (tree_run true)) = records recs /\
    map snd recs = map fst (dedup_entries [] tree_listing) /\
    fst (tree_run true) = usage_sum (dedup_entries [] tree_listing).
Proof.
  destruct (hardlink_first_encounter tree_env true 10 "d"%string tree_listing
              initial_state (fst (tree_run true)) (snd (tree_run true)))
    as [_ [_ [recs [Hl [Hp [Ht _]]]]]].
  - vm_compute. reflexivity.
  - exists (mkStat S_IFDIR 8 1 3). split; vm_compute; reflexivity.
  - reflexivity.
  - constructor.
  - vm_compute. discriminate.
  - vm_compute. reflexivity.
  - vm_compute. reflexivity.
  - vm_compute. reflexivity.
  - exists recs. split; [exact Hl|]. split; [exact (Hp eq_refl) | exact Ht].
Defined.

(** Records by mode, in runs where every store into the registry stays
    inside its block.  For every error-free traversal of a directory whose
    walk succeeds, from a registry with a non-negative slot count, ending
    with no out-of-bounds store recorded: in files-disabled mode the record
    paths are exactly the directories of the listing; in files-enabled
    mode they are the entries of the listing except the duplicate links of
    multi-link regular files. *)
Theorem records_by_mode (env : Env) b fuel p es s t s' :
  walk_spec env fuel p = Some es ->
  (exists st, lstat env p = inl st /\ S_ISDIR (st_mode st) = true) ->
  error s = 0%Z -> (0 <= size (seen s))%Z ->
  dfs env fuel p b s = Some (t, s') -> error s' = 0%Z -> oob_write (seen s') = false ->
  exists recs, log s' = log s ++ records recs /\
    map snd recs = (if b then map fst (dedup_entries (data (seen s)) es)
                    else map fst (filter is_dir_entry es)).
Proof.
  intros Hw Hd He0 _ Hrun He' _.
  destruct (dfs_walk env b fuel p es s Hw Hd He0) as [t1 [s1 [Hr1 [Hok _]]]].
  rewrite Hrun in Hr1. injection Hr1 as <- <-.
  destruct (Hok He') as [recs [Hl Ha]]. rewrite account_dedup in Ha.
  injection Ha as Hp _ _.
  exists recs. split; [exact Hl | symmetry; exact Hp].
Qed.

(** The files-disabled records on tree_env. *)
Lemma records_by_mode_witness :
  exists recs, log (snd (tree_run false)) = records recs /\
    map snd recs = map fst (filter is_dir_entry tree_listing).
Proof.
  destruct (records_by_mode tree_env false 10 "d"%string tree_listing initial_state
              (fst (tree_run false)) (snd (tree_run false))) as [recs [Hl Hp]].
  - vm_compute. reflexivity.
  - exists (mkStat S_IFDIR 8 1 3). split; vm_compute; reflexivity.
  - reflexivity.
  - vm_compute. discriminate.
  - vm_compute. reflexivity.
  - vm_compute. reflexivity.
  - vm_compute. reflexivity.
  - exists recs. split; [exact Hl | exact Hp].
Defined.

(** Usage of a tree without hard links.  For every directory whose walk
    succeeds and whose tree holds no regular file with more than one link,
    the traversal succeeds, and the usage reported for the root is
    [usage_sum] of the listing: the own usage of every directory (the root
    included) and of every regular file.  Symbolic links and the other
    non-regular, non-directory entries add nothing to their parent's
    total. *)
Theorem usage_without_hardlinks (env : Env) b fuel p es s :
  walk_spec env fuel p = Some es ->
  (exists st, lstat env p = inl st /\ S_ISDIR (st_mode st) = true) ->
  error s = 0%Z ->
  (forall q st, In (q, st) es -> multi_link st = false) ->
  exists t s', dfs env fuel p b s = Some (t, s') /\ error s' = 0%Z /\ t = usage_sum es.
Proof.
  intros Hw Hd He0 Hnm.
  destruct (dfs_walk env b fuel p es s Hw Hd He0) as [t [s' [Hr [Hok Herr]]]].
  exists t, s'. split; [exact Hr|].
  assert (He' : error s' = 0%Z).
  { destruct (Z.eq_dec (error s') 0) as [E|E]; [exact E|].
    destruct (Herr E) as [q [st [Hin [Hreg Hn]]]].
    specialize (Hnm q st Hin). unfold multi_link in Hnm.
    rewrite Hreg in Hnm. apply Z.ltb_lt in Hn. rewrite Hn in Hnm. discriminate. }
  split; [exact He'|].
  destruct (Hok He') as [recs [_ Ha]].
  rewrite account_dedup, (dedup_all _ _ Hnm) in Ha. injection Ha as _ _ Ht.
  symmetry. exact Ht.
Qed.

(** On broken_env's subdirectory d/s, holding one regular file. *)
Lemma usage_without_hardlinks_witness :
  exists t s', dfs broken_env 3 "d/s" true initial_state = Some (t, s') /\ error s' = 0%Z /\
    t = usage_sum [("d/s/x"%string, mkStat S_IFREG 4 4 1); ("d/s"%string, mkStat S_IFDIR 8 3 2)].
Proof.
  apply usage_without_hardlinks.
  - vm_compute. reflexivity.
  - exists (mkStat S_IFDIR 8 3 2). split; vm_compute; reflexivity.
  - reflexivity.
  - intros q st [H|[H|[]]]; injection H as <- <-; reflexivity.
Defined.

(** The diagnostics written on a traversal error:
    - a stat failure on the path a [dfs] call was given names that path;
    - a directory that cannot be opened is named by its path;
    - a failed registry insertion names the inode number.
    A failing traversal writes exactly one diagnostic, after records below
    its root only, and [du] then returns -1 with no record for its root. *)
Theorem diagnostics_on_error (env : Env) :
  (forall fuel p b s e, lstat env p = inr e ->
     dfs env (S fuel) p b s =
     Some (0%Z, set_error e (emit (Stderr ("failed to get stat for '" ++ p ++ "'" ++ nl)) s))) /\
  (forall fuel p b s st e, lstat env p = inl st -> S_ISDIR (st_mode st) = true ->
     opendir env p = inr e ->
     dfs env (S fuel) p b s =
     Some (0%Z, set_error e (emit (Stderr ("failed to open directory '" ++ p ++ "'" ++ nl)) s))) /\
  (forall rec b p n rest total s st, is_dot_entry n = false ->
     lstat env (child_path p n) = inl st -> multi_link st = true ->
     SearchInode (seen s) (st_ino st) = false -> InsertInode env (seen s) (st_ino st) = None ->
     dfs_loop env rec b p (n :: rest) total s =
     Some (total, set_error ENOMEM (emit (Stderr ("failed to insert inode '"
                                    ++ string_of_ino (st_ino st) ++ "'" ++ nl)) s))) /\
  (forall fuel p b s t s', dfs env fuel p b s = Some (t, s') ->
     error s = 0%Z -> error s' <> 0%Z ->
     exists recs m, log s' = log s ++ records recs ++ [Stderr m] /\
       Forall (fun r => below p (snd r)) recs) /\
  (forall fuel p b r L, du env fuel p b = Some (r, L) -> (exists m, In (Stderr m) L) ->
     r = (-1)%Z /\ forall u, ~ In (Stdout u p) L).
Proof.
  split; [intros fuel p b s e H; simpl; rewrite H; reflexivity|].
  split; [intros fuel p b s st e H1 H2 H3; simpl; rewrite H1; simpl; rewrite H2; simpl;
          rewrite H3; reflexivity|].
  split.
  { intros rec b p n rest total s st Hd Hst Hm Hs Hins.
    rewrite dfs_loop_entry by exact Hd. cbv zeta.
    change (snd (snprintf_path p n)) with (child_path p n). rewrite Hst.
    unfold multi_link in Hm. apply andb_prop in Hm. destruct Hm as [Hreg Hn].
    assert (Hdir : S_ISDIR (st_mode st) = false)
      by (destruct (st_mode st); simpl in *; congruence).
    rewrite Hdir, Hreg, Hn, Hs, Hins. reflexivity. }
  split; [exact (dfs_error_output env)|].
  intros fuel p b r L H Hm. destruct (du_failure env fuel p b r L H Hm) as [Hr [_ Hp]].
  split; [exact Hr | exact Hp].
Qed.

(** The stat diagnostic for a path that does not exist, and the open
    diagnostic for the directory d/t of broken_env. *)
Lemma diagnostics_on_error_witness :
  dfs symlink_env 1 "nope" true initial_state =
  Some (0%Z, set_error ENOENT
    (emit (Stderr ("failed to get stat for '" ++ "nope" ++ "'" ++ nl)) initial_state)) /\
  dfs broken_env 1 "d/t" true initial_state =
  Some (0%Z, set_error EACCES
    (emit (Stderr ("failed to open directory '" ++ "d/t" ++ "'" ++ nl)) initial_state)).
Proof.
  split.
  - apply (proj1 (diagnostics_on_error symlink_env) 0 "nope"%string true initial_state ENOENT).
    vm_compute. reflexivity.
  - apply (proj1 (proj2 (diagnostics_on_error broken_env)) 0 "d/t"%string true initial_state
             (mkStat S_IFDIR 8 5 2) EACCES); vm_compute; reflexivity.
Defined.
